(** * CoordinatesFromIPs.js: resolving IPv4 addresses to coordinates

    A shallow embedding of [src/CoordinatesFromIPs.js] and the proofs of
    its specified properties.

    The three exported functions are asynchronous: they issue HTTP
    requests with [fetch], write to the console, and settle a promise.
    They are embedded as programs over these two effects (type [Prog]),
    whose results are completion records in the sense of the language
    definition (normal, return, throw).  A program is run sequentially
    against a network that answers each request ([run]), and a pool of
    programs is run concurrently under a scheduler that picks which
    outstanding request is answered next ([promiseAll], which takes fuel:
    the number of requests it may let settle).  The trace of a run lists
    the requests and the console lines in the order they were made. *)

From Stdlib Require Import ZArith Lia Ascii String.
From stdpp Require Import base option list strings gmap.

Set Default Proof Using "Type".
Local Open Scope string_scope.
Local Open Scope list_scope.

(** ** Language values *)

(** A number as parsing a JSON text produces it: a signed zero, a finite
    non-zero binary float, or an infinity (from a literal out of range).
    A JSON text has no spelling for NaN. *)
Inductive Number : Type :=
  | Zero (negative : bool)
  | Finite (negative : bool) (mantissa : positive) (exponent : Z)
  | Infinity (negative : bool).

Definition isZero (n : Number) : bool :=
  match n with Zero _ => true | _ => false end.

(** Values: what [response.json()] yields, and [undefined], which reading
    a missing property yields.  Strings are sequences of bytes; the
    characters the code inspects (digits and the dot) are ASCII. *)
#[local] Unset Elimination Schemes.
Inductive JSValue : Type :=
  | JUndefined
  | JNull
  | JBool (b : bool)
  | JNumber (n : Number)
  | JString (s : string)
  | JArray (items : list JSValue)
  | JObject (props : gmap string JSValue).
#[local] Set Elimination Schemes.

(** ToBoolean, as applied by [if] and [&&]. *)
Definition truthy (v : JSValue) : bool :=
  match v with
  | JUndefined | JNull => false
  | JBool b => b
  | JNumber n => negb (isZero n)
  | JString s => negb (String.eqb s "")
  | JArray _ | JObject _ => true
  end.

(** [v === 'lit'] for a string literal. *)
Definition strictEqualsString (v : JSValue) (lit : string) : bool :=
  match v with
  | JString s => String.eqb s lit
  | _ => false
  end.

Inductive JSError : Type :=
  | TypeError (message : string)
  | SyntaxError (message : string)
  | OtherError (message : string).

(** The state in which a promise settles. *)
Inductive Outcome (A : Type) : Type :=
  | Fulfilled (a : A)
  | Rejected (e : JSError).
Arguments Fulfilled {A} a.
Arguments Rejected {A} e.

(** [o.key] for the property names the module reads ([status], [lon],
    [lat], [longitude], [latitude]): none of them is inherited from a
    prototype, so the read finds an own property of an object or nothing.
    Reading a property of [null] or [undefined] throws. *)
Definition getProp (o : JSValue) (key : string) : Outcome JSValue :=
  match o with
  | JUndefined | JNull =>
      Rejected (TypeError "Cannot read properties of null or undefined")
  | JObject props => Fulfilled (default JUndefined (props !! key))
  | _ => Fulfilled JUndefined
  end.

(** ** Regular expressions *)

(** The fragment of the pattern syntax that [ipRegex] uses. *)
Inductive Regex : Type :=
  | Bol                                   (* ^ *)
  | Eol                                   (* $ *)
  | Digit                                 (* \d *)
  | Lit (c : ascii)                       (* an escaped character *)
  | Seq (r1 r2 : Regex)
  | Rep (r : Regex) (min max : nat).      (* (r){min,max} *)

Definition isDigit (c : ascii) : bool :=
  let n := nat_of_ascii c in (48 <=? n)%nat && (n <=? 57)%nat.

(** Backtracking matcher in continuation style: [matchRe r pos s k] tries
    [r] on the input [s] that remains at index [pos], and hands every
    way of matching it to the continuation [k]. *)
Fixpoint matchRe (r : Regex) (pos : nat) (s : string)
    (k : nat -> string -> bool) : bool :=
  match r with
  | Bol => Nat.eqb pos 0 && k pos s
  | Eol => match s with EmptyString => k pos s | String _ _ => false end
  | Digit =>
      match s with
      | String c s' => isDigit c && k (S pos) s'
      | EmptyString => false
      end
  | Lit c0 =>
      match s with
      | String c s' => Ascii.eqb c c0 && k (S pos) s'
      | EmptyString => false
      end
  | Seq r1 r2 => matchRe r1 pos s (fun pos' s' => matchRe r2 pos' s' k)
  | Rep r0 min max =>
      (fix rep (min max : nat) (pos : nat) (s : string) {struct max} : bool :=
         match max with
         | O => k pos s
         | S max' =>
             matchRe r0 pos s (fun pos' s' => rep (Nat.pred min) max' pos' s')
             || (Nat.eqb min 0 && k pos s)
         end) min max pos s
  end.

(** A match attempt at every index from [pos] on, leftmost first. *)
Fixpoint searchFrom (r : Regex) (pos : nat) (s : string) : bool :=
  matchRe r pos s (fun _ _ => true)
  || match s with
     | String _ s' => searchFrom r (S pos) s'
     | EmptyString => false
     end.

(** [r.test(s)] for a pattern without the global or sticky flag. *)
Definition RegExp_test (r : Regex) (s : string) : bool := searchFrom r 0 s.

(** [/^(\d{1,3}\.){3}\d{1,3}$/] *)
Definition ipRegex : Regex :=
  Seq Bol
    (Seq (Rep (Seq (Rep Digit 1 3) (Lit ".")) 3 3)
         (Seq (Rep Digit 1 3) Eol)).

(** ** Effects *)

(** What the module reads of a response: how [response.json()] settles. *)
Record Response : Type := mkResponse { json : Outcome JSValue }.

(** A coordinate pair [[lon, lat]], holding the two values as the provider
    sent them. *)
Definition Coords : Type := JSValue * JSValue.

Inductive Provider : Type := IpApiCom | IpapiCo | IpApiIo.

Inductive Level : Type := LogInfo | LogWarn | LogError.

(** The console lines of the module, by their content. *)
Inductive Message : Type :=
  | InvalidFormat (ipAddress : string)
  | GotCoords (provider : Provider) (coords : Coords)
  | RequestFailed (provider : Provider) (error : JSError)
  | NoCoords.

Inductive Event : Type :=
  | EvFetch (url : string)
  | EvConsole (level : Level) (message : Message).

Definition Trace : Type := list Event.

(** The URLs requested so far. *)
Fixpoint requests (tr : Trace) : list string :=
  match tr with
  | [] => []
  | EvFetch url :: tr' => url :: requests tr'
  | EvConsole _ _ :: tr' => requests tr'
  end.

(** A program over the two effects: it finishes with a value, issues a
    request and continues with the way the request settles, or writes a
    console line and continues. *)
Inductive Prog (A : Type) : Type :=
  | Ret (a : A)
  | Fetch (url : string) (k : Outcome Response -> Prog A)
  | Console (level : Level) (message : Message) (k : Prog A).
Arguments Ret {A} a.
Arguments Fetch {A} url k.
Arguments Console {A} level message k.

Fixpoint bind {A B : Type} (p : Prog A) (f : A -> Prog B) : Prog B :=
  match p with
  | Ret a => f a
  | Fetch url k => Fetch url (fun r => bind (k r) f)
  | Console level message k => Console level message (bind k f)
  end.

(** Completion of a piece of a function body whose [return] carries an
    [R]: it completes normally with a value, returns from the function,
    or throws. *)
Inductive Completion (R A : Type) : Type :=
  | Normal (a : A)
  | Return (r : R)
  | Throw (e : JSError).
Arguments Normal {R A} a.
Arguments Return {R A} r.
Arguments Throw {R A} e.

Definition JS (R A : Type) : Type := Prog (Completion R A).

Definition pure {R A : Type} (a : A) : JS R A := Ret (Normal a).

Definition andThen {R A B : Type} (c : JS R A) (f : A -> JS R B) : JS R B :=
  bind c (fun x =>
    match x with
    | Normal a => f a
    | Return r => Ret (Return r)
    | Throw e => Ret (Throw e)
    end).

Notation "'let*' x ':=' c1 'in' c2" := (andThen c1 (fun x => c2))
  (at level 10, x name, c1 at level 100, c2 at level 200,
   format "'[v' 'let*'  x  ':='  c1  'in' '/' c2 ']'").
Notation "c1 ;;; c2" := (andThen c1 (fun _ => c2))
  (at level 100, c2 at level 200, right associativity).

Definition return_ {R A : Type} (r : R) : JS R A := Ret (Return r).

(** [try { body } catch (error) { handler }] *)
Definition tryCatch {R A : Type} (body : JS R A) (handler : JSError -> JS R A)
    : JS R A :=
  bind body (fun x =>
    match x with
    | Throw e => handler e
    | other => Ret other
    end).

(** [await p]: the value of a fulfilled promise; a rejection is thrown. *)
Definition await {R A : Type} (p : Prog (Outcome A)) : JS R A :=
  bind p (fun o =>
    match o with
    | Fulfilled a => Ret (Normal a)
    | Rejected e => Ret (Throw e)
    end).

(** The value of an expression that may throw. *)
Definition eval {R A : Type} (o : Outcome A) : JS R A :=
  match o with
  | Fulfilled a => Ret (Normal a)
  | Rejected e => Ret (Throw e)
  end.

(** [a && b]: the value of [a] when it is falsy, else the value of [b],
    which is evaluated only then. *)
Definition andAlso {R : Type} (a b : JS R JSValue) : JS R JSValue :=
  andThen a (fun v => if truthy v then b else pure v).

(** [if (test) { body }], with no [else]. *)
Definition when {R : Type} (test : JS R JSValue) (body : JS R unit)
    : JS R unit :=
  andThen test (fun v => if truthy v then body else pure tt).

(** An [async function]: the promise it returns is fulfilled by [return]
    and rejected by an uncaught throw.  The bodies of this module all end
    in a [return], so a body is a piece of code that does not complete
    normally. *)
Definition asyncFunction {R : Type} (body : JS R Empty_set)
    : Prog (Outcome R) :=
  bind body (fun x =>
    match x with
    | Normal a => match a with end
    | Return r => Ret (Fulfilled r)
    | Throw e => Ret (Rejected e)
    end).

Definition fetch (url : string) : Prog (Outcome Response) :=
  Fetch url (fun r => Ret r).

Definition response_json (response : Response) : Prog (Outcome JSValue) :=
  Ret (json response).

Definition console {R : Type} (level : Level) (message : Message) : JS R unit :=
  Console level message (Ret (Normal tt)).

(** ** The module *)

Definition url1 (ipAddress : string) : string :=
  "http://ip-api.com/json/" +:+ ipAddress +:+ "?fields=status,message,lon,lat".
Definition url2 (ipAddress : string) : string :=
  "https://ipapi.co/" +:+ ipAddress +:+ "/json/".
Definition url3 (ipAddress : string) : string :=
  "https://ip-api.io/json/" +:+ ipAddress.

(** Lines 13-17: the format check, which returns [null] on a mismatch. *)
Definition validate (ipAddress : string) : JS (option Coords) unit :=
  if negb (RegExp_test ipRegex ipAddress)
  then console LogError (InvalidFormat ipAddress) ;;; return_ None
  else pure tt.

(** Lines 20-31: ip-api.com. *)
Definition tryProvider1 (ipAddress : string) : JS (option Coords) unit :=
  tryCatch
    (let* response1 := await (fetch (url1 ipAddress)) in
     let* data1 := await (response_json response1) in
     when
       (andAlso
          (andAlso
             (let* status := eval (getProp data1 "status") in
              pure (JBool (strictEqualsString status "success")))
             (eval (getProp data1 "lon")))
          (eval (getProp data1 "lat")))
       (let* lon := eval (getProp data1 "lon") in
        let* lat := eval (getProp data1 "lat") in
        console LogInfo (GotCoords IpApiCom (lon, lat)) ;;;
        let* lon := eval (getProp data1 "lon") in
        let* lat := eval (getProp data1 "lat") in
        return_ (Some (lon, lat))))
    (fun error => console LogWarn (RequestFailed IpApiCom error)).

(** Lines 34-43: ipapi.co. *)
Definition tryProvider2 (ipAddress : string) : JS (option Coords) unit :=
  tryCatch
    (let* response2 := await (fetch (url2 ipAddress)) in
     let* data2 := await (response_json response2) in
     when
       (andAlso (eval (getProp data2 "longitude"))
                (eval (getProp data2 "latitude")))
       (let* lon := eval (getProp data2 "longitude") in
        let* lat := eval (getProp data2 "latitude") in
        console LogInfo (GotCoords IpapiCo (lon, lat)) ;;;
        let* lon := eval (getProp data2 "longitude") in
        let* lat := eval (getProp data2 "latitude") in
        return_ (Some (lon, lat))))
    (fun error => console LogWarn (RequestFailed IpapiCo error)).

(** Lines 46-55: ip-api.io. *)
Definition tryProvider3 (ipAddress : string) : JS (option Coords) unit :=
  tryCatch
    (let* response3 := await (fetch (url3 ipAddress)) in
     let* data3 := await (response_json response3) in
     when
       (andAlso (eval (getProp data3 "longitude"))
                (eval (getProp data3 "latitude")))
       (let* lon := eval (getProp data3 "longitude") in
        let* lat := eval (getProp data3 "latitude") in
        console LogInfo (GotCoords IpApiIo (lon, lat)) ;;;
        let* lon := eval (getProp data3 "longitude") in
        let* lat := eval (getProp data3 "latitude") in
        return_ (Some (lon, lat))))
    (fun error => console LogWarn (RequestFailed IpApiIo error)).

(** [getCoordinatesFromIP] (lines 11-59).  The result [None] is [null]. *)
Definition getCoordinatesFromIP (ipAddress : string)
    : Prog (Outcome (option Coords)) :=
  asyncFunction (
    validate ipAddress ;;;
    tryProvider1 ipAddress ;;;
    tryProvider2 ipAddress ;;;
    tryProvider3 ipAddress ;;;
    console LogError NoCoords ;;;
    return_ None).

(** An entry of the batch result, a pair of addresses, a flow.  A flow
    holds the two values the resolver gave, whatever they are. *)
Record Entry : Type := mkEntry { ip : string; coords : option Coords }.
Record IpPair : Type := mkIpPair { srcIP : string; dstIP : string }.
Record Flow : Type := mkFlow { src : option Coords; dst : option Coords }.

(** ToBoolean of what the resolver returns: [null] is falsy, an array is
    truthy. *)
Definition truthyCoords (c : option Coords) : bool :=
  match c with Some _ => true | None => false end.

(** The callback that [getCoordinatesFromIPs] maps over its input
    (lines 68-71). *)
Definition entryOf (ip : string) : Prog (Outcome Entry) :=
  asyncFunction (
    let* coords := await (getCoordinatesFromIP ip) in
    return_ {| ip := ip; coords := coords |}).

(** The loop of [createFlowsFromIPs] (lines 83-89), from the pairs that
    remain and the array [flows] as it stands. *)
Fixpoint forOfPairs {R : Type} (ipPairs : list IpPair) (flows : list Flow)
    : JS R (list Flow) :=
  match ipPairs with
  | [] => pure flows
  | ipPair :: rest =>
      let* srcCoords := await (getCoordinatesFromIP (srcIP ipPair)) in
      let* dstCoords := await (getCoordinatesFromIP (dstIP ipPair)) in
      let* flows :=
        (if truthyCoords srcCoords && truthyCoords dstCoords
         then pure (flows ++ [{| src := srcCoords; dst := dstCoords |}])
         else pure flows) in
      forOfPairs rest flows
  end.

(** [createFlowsFromIPs] (lines 81-91). *)
Definition createFlowsFromIPs (ipPairs : list IpPair)
    : Prog (Outcome (list Flow)) :=
  asyncFunction (
    let* flows := forOfPairs ipPairs [] in
    return_ flows).

(** ** Sequential execution *)

(** The network: how the request for a URL settles, given the requests
    made before it. *)
Definition Network : Type := list string -> string -> Outcome Response.

(** Runs a program to its end, appending what it does to the trace. *)
Fixpoint run {A : Type} (net : Network) (p : Prog A) (tr : Trace) : A * Trace :=
  match p with
  | Ret a => (a, tr)
  | Fetch url k => run net (k (net (requests tr) url)) (tr ++ [EvFetch url])
  | Console level message k => run net k (tr ++ [EvConsole level message])
  end.

(** ** Concurrent execution *)

(** The scheduler decides, from what has happened so far and the list of
    outstanding requests (task index and URL), which of them settles next
    (by its position in that list) and how. *)
Definition Scheduler : Type :=
  Trace -> list (nat * string) -> nat * Outcome Response.

(** Runs a task up to its next [await] of a request, which it issues, or
    to its end. *)
Fixpoint advance {A : Type} (p : Prog A) (tr : Trace) : Prog A * Trace :=
  match p with
  | Ret a => (Ret a, tr)
  | Fetch url k => (Fetch url k, tr ++ [EvFetch url])
  | Console level message k => advance k (tr ++ [EvConsole level message])
  end.

(** [Array.prototype.map] with an async callback: the calls are made in
    order, each running up to its first suspension. *)
Fixpoint spawn {A : Type} (ps : list (Prog A)) (tr : Trace)
    : list (Prog A) * Trace :=
  match ps with
  | [] => ([], tr)
  | p :: ps' =>
      let (t, tr1) := advance p tr in
      let (ts, tr2) := spawn ps' tr1 in
      (t :: ts, tr2)
  end.

(** The outstanding requests of the tasks, numbered from [i]. *)
Fixpoint pending {A : Type} (i : nat) (tasks : list (Prog A))
    : list (nat * string) :=
  match tasks with
  | [] => []
  | Fetch url _ :: ts => (i, url) :: pending (S i) ts
  | _ :: ts => pending (S i) ts
  end.

(** The state of the promise of [Promise.all]: rejected as soon as a task
    is, fulfilled with all the values, in the order of the tasks, once
    every task is fulfilled, and pending ([None]) otherwise. *)
Fixpoint settled {A : Type} (tasks : list (Prog (Outcome A)))
    : option (Outcome (list A)) :=
  match tasks with
  | [] => Some (Fulfilled [])
  | Ret (Rejected e) :: _ => Some (Rejected e)
  | Ret (Fulfilled a) :: ts =>
      match settled ts with
      | Some (Fulfilled l) => Some (Fulfilled (a :: l))
      | other => other
      end
  | _ :: ts =>
      match settled ts with
      | Some (Rejected e) => Some (Rejected e)
      | _ => None
      end
  end.

(** [await Promise.all(tasks)]: while the promise is pending, the
    scheduler settles one outstanding request and the task that awaits it
    runs on.  [fuel] bounds the number of requests settled. *)
Fixpoint promiseAll {A : Type} (sched : Scheduler) (fuel : nat)
    (tasks : list (Prog (Outcome A))) (tr : Trace)
    : option (Outcome (list A) * Trace) :=
  match settled tasks with
  | Some o => Some (o, tr)
  | None =>
      match fuel with
      | O => None
      | S fuel' =>
          let waiting := pending 0 tasks in
          let (choice, r) := sched tr waiting in
          match waiting !! (choice mod length waiting) with
          | Some (i, _) =>
              match tasks !! i with
              | Some (Fetch _ k) =>
                  let (t, tr') := advance (k r) tr in
                  promiseAll sched fuel' (<[i := t]> tasks) tr'
              | _ => None
              end
          | None => None
          end
      end
  end.

(** [getCoordinatesFromIPs] (lines 66-74). *)
Definition getCoordinatesFromIPs (sched : Scheduler) (fuel : nat)
    (ipAddresses : list string) (tr : Trace)
    : option (Outcome (list Entry) * Trace) :=
  let (tasks, tr0) := spawn (map entryOf ipAddresses) tr in
  match promiseAll sched fuel tasks tr0 with
  | Some (Fulfilled results, tr') => Some (Fulfilled results, tr')
  | Some (Rejected e, tr') => Some (Rejected e, tr')
  | None => None
  end.

(** ** Vocabulary of the specification *)

(** A response whose body parses to [data]. *)
Definition okJson (data : JSValue) : Outcome Response :=
  Fulfilled {| json := Fulfilled data |}.

(** The value of a field of a provider's answer, [undefined] when the
    answer has no such field. *)
Definition field (data : JSValue) (key : string) : JSValue :=
  match data with
  | JObject props => default JUndefined (props !! key)
  | _ => JUndefined
  end.

(** Usable data of provider 1, and of providers 2 and 3. *)
Definition usable1 (data : JSValue) : bool :=
  strictEqualsString (field data "status") "success"
  && truthy (field data "lon") && truthy (field data "lat").
Definition usable23 (data : JSValue) : bool :=
  truthy (field data "longitude") && truthy (field data "latitude").

(** A provider fails: the request or the parsing of the body fails, or the
    data is unusable. *)
Definition fails (usable : JSValue -> bool) (r : Outcome Response) : Prop :=
  match r with
  | Fulfilled {| json := Fulfilled data |} => usable data = false
  | _ => True
  end.

(** What one attempt at a provider comes to. *)
Inductive Attempt : Type :=
  | Found (c : Coords)
  | Unusable
  | Failed (e : JSError).

Definition attempt (usable : JSValue -> bool) (lonKey latKey : string)
    (r : Outcome Response) : Attempt :=
  match r with
  | Rejected e => Failed e
  | Fulfilled {| json := Rejected e |} => Failed e
  | Fulfilled {| json := Fulfilled data |} =>
      match data with
      | JUndefined | JNull =>
          Failed (TypeError "Cannot read properties of null or undefined")
      | _ =>
          if usable data then Found (field data lonKey, field data latKey)
          else Unusable
      end
  end.

Definition completionOf (a : Attempt) : Completion (option Coords) unit :=
  match a with
  | Found c => Return (Some c)
  | Unusable | Failed _ => Normal tt
  end.

Definition logOf (provider : Provider) (a : Attempt) : Trace :=
  match a with
  | Found c => [EvConsole LogInfo (GotCoords provider c)]
  | Unusable => []
  | Failed e => [EvConsole LogWarn (RequestFailed provider e)]
  end.

(** The trace after an attempt at a provider. *)
Definition attempted (tr : Trace) (url : string) (provider : Provider)
    (a : Attempt) : Trace :=
  tr ++ EvFetch url :: logOf provider a.

(** The fallback chain on a well-formed address, in terms of attempts:
    from provider 3, from provider 2, and whole. *)
Definition fallback3 (net : Network) (ipAddress : string) (tr : Trace)
    : Outcome (option Coords) * Trace :=
  let a3 := attempt usable23 "longitude" "latitude"
              (net (requests tr) (url3 ipAddress)) in
  let tr3 := attempted tr (url3 ipAddress) IpApiIo a3 in
  match a3 with
  | Found c => (Fulfilled (Some c), tr3)
  | _ => (Fulfilled None, tr3 ++ [EvConsole LogError NoCoords])
  end.

Definition fallback2 (net : Network) (ipAddress : string) (tr : Trace)
    : Outcome (option Coords) * Trace :=
  let a2 := attempt usable23 "longitude" "latitude"
              (net (requests tr) (url2 ipAddress)) in
  let tr2 := attempted tr (url2 ipAddress) IpapiCo a2 in
  match a2 with
  | Found c => (Fulfilled (Some c), tr2)
  | _ => fallback3 net ipAddress tr2
  end.

Definition fallback (net : Network) (ipAddress : string) (tr : Trace)
    : Outcome (option Coords) * Trace :=
  let a1 := attempt usable1 "lon" "lat" (net (requests tr) (url1 ipAddress)) in
  let tr1 := attempted tr (url1 ipAddress) IpApiCom a1 in
  match a1 with
  | Found c => (Fulfilled (Some c), tr1)
  | _ => fallback2 net ipAddress tr1
  end.

(** A provider's data gives a longitude or a latitude of exactly zero
    (of either sign: [-0 === 0]). *)
Definition hasZero (data : JSValue) (lonKey latKey : string) : Prop :=
  exists negative : bool,
    field data lonKey = JNumber (Zero negative)
    \/ field data latKey = JNumber (Zero negative).

(** ** Dotted-quad syntax *)

Fixpoint allDigits (g : string) : bool :=
  match g with
  | EmptyString => true
  | String c g' => isDigit c && allDigits g'
  end.

(** A group of one to three decimal digits. *)
Definition isGroup (g : string) : bool :=
  allDigits g && (1 <=? String.length g)%nat && (String.length g <=? 3)%nat.

(** Four groups separated by dots. *)
Definition dottedQuad (s : string) : Prop :=
  exists a b c d : string,
    isGroup a = true /\ isGroup b = true /\ isGroup c = true
    /\ isGroup d = true
    /\ s = a +:+ "." +:+ b +:+ "." +:+ c +:+ "." +:+ d.

(** What a pattern matches: [Matches r pos s pos' s'] when [r] can match
    the input [s] at index [pos] and leave [s'] at index [pos']. *)
Fixpoint Matches (r : Regex) (pos : nat) (s : string) (pos' : nat)
    (s' : string) : Prop :=
  match r with
  | Bol => pos = 0%nat /\ pos' = pos /\ s' = s
  | Eol => s = EmptyString /\ pos' = pos /\ s' = s
  | Digit => exists c, isDigit c = true /\ s = String c s' /\ pos' = S pos
  | Lit c => s = String c s' /\ pos' = S pos
  | Seq r1 r2 =>
      exists p1 s1, Matches r1 pos s p1 s1 /\ Matches r2 p1 s1 pos' s'
  | Rep r0 min max =>
      (fix rep (min max : nat) (pos : nat) (s : string) {struct max} : Prop :=
         match max with
         | O => pos' = pos /\ s' = s
         | S max' =>
             (exists p1 s1,
                Matches r0 pos s p1 s1 /\ rep (Nat.pred min) max' p1 s1)
             \/ (min = 0%nat /\ pos' = pos /\ s' = s)
         end) min max pos s
  end.

(** ** Resolutions, for the flow builder *)

(** The resolver invoked on each address in turn: how each invocation
    settles, and the trace after the last. *)
Fixpoint resolveEach (net : Network) (ipAddresses : list string) (tr : Trace)
    : list (Outcome (option Coords)) * Trace :=
  match ipAddresses with
  | [] => ([], tr)
  | ipAddress :: rest =>
      let (o, tr1) := run net (getCoordinatesFromIP ipAddress) tr in
      let (os, tr2) := resolveEach net rest tr1 in
      (o :: os, tr2)
  end.

(** The two resolutions of each pair in turn, source first. *)
Fixpoint resolvePairs (net : Network) (ipPairs : list IpPair) (tr : Trace)
    : list (Outcome (option Coords) * Outcome (option Coords)) * Trace :=
  match ipPairs with
  | [] => ([], tr)
  | ipPair :: rest =>
      let (s, tr1) := run net (getCoordinatesFromIP (srcIP ipPair)) tr in
      let (d, tr2) := run net (getCoordinatesFromIP (dstIP ipPair)) tr1 in
      let (sds, tr3) := resolvePairs net rest tr2 in
      ((s, d) :: sds, tr3)
  end.

(** The flow of a pair both of whose resolutions returned coordinates. *)
Definition flowOf (sd : Outcome (option Coords) * Outcome (option Coords))
    : option Flow :=
  match sd with
  | (Fulfilled (Some s), Fulfilled (Some d)) =>
      Some {| src := Some s; dst := Some d |}
  | _ => None
  end.

(** The addresses of the pairs, in the order of their resolution. *)
Definition endpoints (ipPairs : list IpPair) : list string :=
  flat_map (fun ipPair => [srcIP ipPair; dstIP ipPair]) ipPairs.

(** ** Tasks, for the batch resolver *)

(** What is left of a program once its first requests have been answered
    by [rs], in order: it is suspended on its next request, or finished.
    Console output is passed over. *)
Fixpoint answered {A : Type} (p : Prog A) (rs : list (Outcome Response))
    : Prog A :=
  match p with
  | Ret a => Ret a
  | Console _ _ k => answered k rs
  | Fetch url k =>
      match rs with
      | [] => Fetch url k
      | r :: rs' => answered (k r) rs'
      end
  end.

(** A program that makes at most [n] requests, however they settle. *)
Fixpoint bounded {A : Type} (n : nat) (p : Prog A) : Prop :=
  match p with
  | Ret _ => True
  | Console _ _ k => bounded n k
  | Fetch _ k =>
      match n with
      | O => False
      | S n' => forall r, bounded n' (k r)
      end
  end.

(** A task of a pool is suspended on a request or finished. *)
Definition suspended {A : Type} (t : Prog A) : Prop :=
  match t with
  | Console _ _ _ => False
  | Ret _ | Fetch _ _ => True
  end.

(** The network that answers the requests by a script: the j-th request
    made settles as the j-th element of [rs]. *)
Definition scripted (rs : list (Outcome Response)) : Network :=
  fun history _ =>
    default (Rejected (OtherError "no answer")) (rs !! length history).

(** The answers [rs] given to the requests of [p], in order, are all
    allowed by [ok], which relates the URL of a request to an answer. *)
Fixpoint answeredBy {A : Type} (ok : string -> Outcome Response -> Prop)
    (p : Prog A) (rs : list (Outcome Response)) : Prop :=
  match p with
  | Ret _ => True
  | Console _ _ k => answeredBy ok k rs
  | Fetch url k =>
      match rs with
      | [] => True
      | r :: rs' => ok url r /\ answeredBy ok (k r) rs'
      end
  end.

(** The task [t] is the program [p] after some answers allowed by [ok]. *)
Definition linked {A : Type} (ok : string -> Outcome Response -> Prop)
    (p t : Prog A) : Prop :=
  exists rs, t = answered p rs /\ answeredBy ok p rs.

(** The scheduler only gives answers allowed by [ok]. *)
Definition obeys (ok : string -> Outcome Response -> Prop)
    (sched : Scheduler) : Prop :=
  forall (tr : Trace) (waiting : list (nat * string)) (i : nat) (url : string),
    waiting !! ((sched tr waiting).1 mod length waiting) = Some (i, url) ->
    ok url (sched tr waiting).2.

Definition anyAnswer : string -> Outcome Response -> Prop := fun _ _ => True.

(** A network, and the answers of a scheduler, that depend on the URL of
    the request alone. *)
Definition stateless (respond : string -> Outcome Response) : Network :=
  fun _ url => respond url.
Definition answersFrom (respond : string -> Outcome Response)
    : string -> Outcome Response -> Prop :=
  fun url r => r = respond url.

(** ** The answers given in a run of the pool *)

(** An answer given by the scheduler: the index of the task whose request
    settles, the URL of that request, and how it settles. *)
Definition Delivery : Type := nat * string * Outcome Response.

(** [promiseAll], keeping beside the result and the trace the list of the
    answers that the scheduler gave, in the order it gave them. *)
Fixpoint promiseAllLog {A : Type} (sched : Scheduler) (fuel : nat)
    (tasks : list (Prog (Outcome A))) (tr : Trace)
    : option (Outcome (list A) * Trace * list Delivery) :=
  match settled tasks with
  | Some o => Some (o, tr, [])
  | None =>
      match fuel with
      | O => None
      | S fuel' =>
          let waiting := pending 0 tasks in
          let (choice, r) := sched tr waiting in
          match waiting !! (choice mod length waiting) with
          | Some (i, url) =>
              match tasks !! i with
              | Some (Fetch _ k) =>
                  let (t, tr') := advance (k r) tr in
                  match promiseAllLog sched fuel' (<[i := t]> tasks) tr' with
                  | Some (o, tr'', log) => Some (o, tr'', (i, url, r) :: log)
                  | None => None
                  end
              | _ => None
              end
          | None => None
          end
      end
  end.

(** [getCoordinatesFromIPs], with the answers given in its run. *)
Definition getCoordinatesFromIPsLog (sched : Scheduler) (fuel : nat)
    (ipAddresses : list string) (tr : Trace)
    : option (Outcome (list Entry) * Trace * list Delivery) :=
  let (tasks, tr0) := spawn (map entryOf ipAddresses) tr in
  match promiseAllLog sched fuel tasks tr0 with
  | Some (Fulfilled results, tr', log) => Some (Fulfilled results, tr', log)
  | Some (Rejected e, tr', log) => Some (Rejected e, tr', log)
  | None => None
  end.

(** The answers given to the requests of task [i], in order, and the URLs
    of these requests. *)
Definition answersTo (i : nat) (log : list Delivery)
    : list (Outcome Response) :=
  omap (fun d : Delivery => if Nat.eqb d.1.1 i then Some d.2 else None) log.
Definition urlsTo (i : nat) (log : list Delivery) : list string :=
  omap (fun d : Delivery => if Nat.eqb d.1.1 i then Some d.1.2 else None) log.

(** The URLs of the requests of [p] that the answers [rs] answer. *)
Fixpoint asked {A : Type} (p : Prog A) (rs : list (Outcome Response))
    : list string :=
  match p with
  | Ret _ => []
  | Console _ _ k => asked k rs
  | Fetch url k =>
      match rs with
      | [] => []
      | r :: rs' => url :: asked (k r) rs'
      end
  end.

(** The URLs of the requests on which the tasks are suspended. *)
Fixpoint pendingUrls {A : Type} (tasks : list (Prog A)) : list string :=
  match tasks with
  | [] => []
  | Fetch url _ :: ts => url :: pendingUrls ts
  | _ :: ts => pendingUrls ts
  end.

(** The answer [d] is one that the scheduler gave in the run from the
    trace [tr] to the trace [tr']: asked at a moment of that run, it chose
    a request of the task and with the URL of [d], then outstanding, and
    settled it as [d] says. *)
Definition givenBy (sched : Scheduler) (tr tr' : Trace) (d : Delivery)
    : Prop :=
  exists (tr1 : Trace) (waiting : list (nat * string)),
    tr `prefix_of` tr1 /\ tr1 `prefix_of` tr'
    /\ waiting !! ((sched tr1 waiting).1 mod length waiting)
       = Some (d.1.1, d.1.2)
    /\ (sched tr1 waiting).2 = d.2.

(** ** Sample inputs *)

Definition sampleAnswer1 : gmap string JSValue :=
  list_to_map [("status", JString "success");
               ("lon", JNumber (Finite false 5 0));
               ("lat", JNumber (Finite false 7 0))].

Definition sampleAnswer2 : gmap string JSValue :=
  list_to_map [("longitude", JNumber (Finite true 9 0));
               ("latitude", JNumber (Finite false 3 0))].

Definition zeroAnswer1 : JSValue :=
  JObject (list_to_map [("status", JString "success");
                        ("lon", JNumber (Zero false));
                        ("lat", JNumber (Finite false 7 0))]).

(** A network on which provider 1 knows [8.8.8.8] and places [0.0.0.0] on
    the prime meridian, provider 2 knows [1.1.1.1], and every other
    request fails. *)
Definition sampleNet : Network :=
  fun _ url =>
    if String.eqb url (url1 "8.8.8.8") then okJson (JObject sampleAnswer1)
    else if String.eqb url (url2 "1.1.1.1") then okJson (JObject sampleAnswer2)
    else if String.eqb url (url1 "0.0.0.0") then okJson zeroAnswer1
    else Rejected (TypeError "Failed to fetch").

(** A scheduler that settles the oldest outstanding request, as
    [sampleNet] does. *)
Definition sampleSched : Scheduler :=
  fun _ waiting =>
    (0, match waiting with
        | (_, url) :: _ => sampleNet [] url
        | [] => Rejected (OtherError "nothing to settle")
        end).


(** A scheduler that settles the newest outstanding request first. *)
Definition newestFirstSched : Scheduler :=
  fun _ waiting =>
    (length waiting - 1,
     match last waiting with
     | Some (_, url) => sampleNet [] url
     | None => Rejected (OtherError "nothing to settle")
     end).

(** ** Further vocabulary *)

(** The error that the [try] block of a provider catches, when the way the
    request settles makes it throw: the request is rejected, the body does
    not parse, or the body is [null], whose properties cannot be read. *)
Definition thrown (r : Outcome Response) : option JSError :=
  match r with
  | Rejected e => Some e
  | Fulfilled {| json := Rejected e |} => Some e
  | Fulfilled {| json := Fulfilled (JUndefined | JNull) |} =>
      Some (TypeError "Cannot read properties of null or undefined")
  | Fulfilled {| json := Fulfilled _ |} => None
  end.

(** What launching the resolution of an address does at once: the first
    request, or the console line of the format check. *)
Definition launch (ipAddress : string) : Event :=
  if RegExp_test ipRegex ipAddress then EvFetch (url1 ipAddress)
  else EvConsole LogError (InvalidFormat ipAddress).

(** A character of a dotted quad. *)
Definition isQuadChar (c : ascii) : bool := isDigit c || Ascii.eqb c ".".

Fixpoint allQuadChars (s : string) : bool :=
  match s with
  | EmptyString => true
  | String c s' => isQuadChar c && allQuadChars s'
  end.

(** The value of the resolver on a network whose answers depend on the
    URL alone. *)
Definition resolved (respond : string -> Outcome Response)
    (ipAddress : string) : Outcome (option Coords) :=
  (run (stateless respond) (getCoordinatesFromIP ipAddress) []).1.

(** Further sample inputs: answers with coordinates as text, and with a
    status other than [success]. *)
Definition textAnswer1 : gmap string JSValue :=
  list_to_map [("status", JString "success");
               ("lon", JString "-122.08");
               ("lat", JString "37.38")].

Definition failAnswer1 : JSValue :=
  JObject (list_to_map [("status", JString "fail");
                        ("lon", JNumber (Finite false 5 0));
                        ("lat", JNumber (Finite false 7 0))]).

(** A network on which only provider 3 knows [3.3.3.3], provider 1 gives
    [4.4.4.4] as text, fails on [5.5.5.5], answers [null] for [6.6.6.6]
    and an empty object for [7.7.7.7]. *)
Definition sampleNet3 : Network :=
  fun _ url =>
    if String.eqb url (url3 "3.3.3.3") then okJson (JObject sampleAnswer2)
    else if String.eqb url (url1 "4.4.4.4") then okJson (JObject textAnswer1)
    else if String.eqb url (url1 "5.5.5.5") then okJson failAnswer1
    else if String.eqb url (url1 "6.6.6.6") then okJson JNull
    else if String.eqb url (url1 "7.7.7.7") then okJson (JObject ∅)
    else Rejected (TypeError "Failed to fetch").

(** The number of requests on which a task is suspended: one or none. *)
Definition awaits {A : Type} (t : Prog A) : nat :=
  match t with
  | Fetch _ _ => 1
  | Ret _ | Console _ _ _ => 0
  end.

(** A pair both of whose addresses pass the format check. *)
Definition wellformedPair (ipPair : IpPair) : bool :=
  RegExp_test ipRegex (srcIP ipPair) && RegExp_test ipRegex (dstIP ipPair).

(** A scheduler that settles the oldest outstanding request and stands for
    a provider with a rate limit: only while nothing but the two first
    requests has happened does it answer, every later request fails. *)
Definition rateLimitedSched : Scheduler :=
  fun tr _ =>
    (0, if (length tr <=? 2)%nat then okJson (JObject sampleAnswer1)
        else Rejected (TypeError "Failed to fetch")).

(** * Properties *)

(** ** Running programs *)

Lemma run_bind {A B : Type} (net : Network) (p : Prog A) (f : A -> Prog B)
    (tr : Trace) :
  run net (bind p f) tr = run net (f (run net p tr).1) (run net p tr).2.
Proof.
  revert tr.
  induction p as [a | url k IH | level message k IH]; intros tr; simpl.
  - reflexivity.
  - apply IH.
  - apply IH.
Qed.

(** An attempt, by the way the request settles: every case but that of
    an object is settled by computation. *)
Ltac run_attempt r :=
  simpl; destruct r as [[[data | e]] | e]; simpl;
  [ destruct data; simpl; rewrite <- ?app_assoc; try reflexivity
  | rewrite <- app_assoc; reflexivity
  | rewrite <- app_assoc; reflexivity ].

(** The test [lon && lat] on the two values read from an object. *)
Ltac run_coordinates lon lat :=
  let Hlon := fresh "Hlon" in
  let Hlat := fresh "Hlat" in
  destruct (truthy lon) eqn:Hlon; cbn; rewrite ?Hlon; cbn; [| reflexivity];
  destruct (truthy lat) eqn:Hlat; cbn; rewrite ?Hlat; cbn;
  rewrite <- ?app_assoc; reflexivity.

Lemma run_tryProvider1 (net : Network) (ipAddress : string) (tr : Trace) :
  let a := attempt usable1 "lon" "lat" (net (requests tr) (url1 ipAddress)) in
  run net (tryProvider1 ipAddress) tr
  = (completionOf a, tr ++ EvFetch (url1 ipAddress) :: logOf IpApiCom a).
Proof.
  unfold tryProvider1. run_attempt (net (requests tr) (url1 ipAddress)).
  unfold usable1, field. cbn.
  generalize (default JUndefined (props !! "status")).
  generalize (default JUndefined (props !! "lon")).
  generalize (default JUndefined (props !! "lat")).
  intros lat lon status.
  destruct (strictEqualsString status "success"); cbn; [| reflexivity].
  run_coordinates lon lat.
Qed.

Lemma run_tryProvider2 (net : Network) (ipAddress : string) (tr : Trace) :
  let a := attempt usable23 "longitude" "latitude"
             (net (requests tr) (url2 ipAddress)) in
  run net (tryProvider2 ipAddress) tr
  = (completionOf a, tr ++ EvFetch (url2 ipAddress) :: logOf IpapiCo a).
Proof.
  unfold tryProvider2. run_attempt (net (requests tr) (url2 ipAddress)).
  unfold usable23, field. cbn.
  generalize (default JUndefined (props !! "longitude")).
  generalize (default JUndefined (props !! "latitude")).
  intros lat lon. run_coordinates lon lat.
Qed.

Lemma run_tryProvider3 (net : Network) (ipAddress : string) (tr : Trace) :
  let a := attempt usable23 "longitude" "latitude"
             (net (requests tr) (url3 ipAddress)) in
  run net (tryProvider3 ipAddress) tr
  = (completionOf a, tr ++ EvFetch (url3 ipAddress) :: logOf IpApiIo a).
Proof.
  unfold tryProvider3. run_attempt (net (requests tr) (url3 ipAddress)).
  unfold usable23, field. cbn.
  generalize (default JUndefined (props !! "longitude")).
  generalize (default JUndefined (props !! "latitude")).
  intros lat lon. run_coordinates lon lat.
Qed.

Lemma run_andThen {R A B : Type} (net : Network) (c : JS R A)
    (f : A -> JS R B) (tr : Trace) :
  run net (andThen c f) tr
  = match run net c tr with
    | (Normal a, tr') => run net (f a) tr'
    | (Return r, tr') => (Return r, tr')
    | (Throw e, tr') => (Throw e, tr')
    end.
Proof.
  unfold andThen. rewrite run_bind.
  destruct (run net c tr) as [[a | r | e] tr']; reflexivity.
Qed.

(** One step of a sequence under [run]. *)
Ltac run_seq :=
  match goal with
  | |- context [@run _ ?net (@andThen ?R ?A ?B ?c ?f) ?tr] =>
      rewrite (@run_andThen R A B net c f tr)
  end.

Lemma run_asyncFunction {R : Type} (net : Network) (body : JS R Empty_set)
    (tr : Trace) :
  run net (asyncFunction body) tr
  = match run net body tr with
    | (Normal a, _) => match a with end
    | (Return r, tr') => (Fulfilled r, tr')
    | (Throw e, tr') => (Rejected e, tr')
    end.
Proof.
  unfold asyncFunction. rewrite run_bind.
  destruct (run net body tr) as [[[] | r | e] tr']; reflexivity.
Qed.

Lemma run_await {R A : Type} (net : Network) (p : Prog (Outcome A))
    (tr : Trace) :
  run net (await (R := R) p) tr
  = match run net p tr with
    | (Fulfilled a, tr') => (Normal a, tr')
    | (Rejected e, tr') => (Throw e, tr')
    end.
Proof.
  unfold await. rewrite run_bind.
  destruct (run net p tr) as [[a | e] tr']; reflexivity.
Qed.

Lemma requests_app (tr1 tr2 : Trace) :
  requests (tr1 ++ tr2) = requests tr1 ++ requests tr2.
Proof.
  induction tr1 as [| [url | level message] tr1 IH]; simpl.
  - reflexivity.
  - f_equal. exact IH.
  - exact IH.
Qed.

Lemma requests_logOf (provider : Provider) (a : Attempt) :
  requests (logOf provider a) = [].
Proof. destruct a; reflexivity. Qed.

Lemma requests_attempted (tr : Trace) (url : string) (provider : Provider)
    (a : Attempt) :
  requests (attempted tr url provider a) = requests tr ++ [url].
Proof.
  unfold attempted. rewrite requests_app. simpl.
  rewrite requests_logOf. reflexivity.
Qed.

(** A malformed address: one console line, no request. *)
Lemma run_malformed (net : Network) (ipAddress : string) (tr : Trace) :
  RegExp_test ipRegex ipAddress = false ->
  run net (getCoordinatesFromIP ipAddress) tr
  = (Fulfilled None, tr ++ [EvConsole LogError (InvalidFormat ipAddress)]).
Proof.
  intros Hbad. unfold getCoordinatesFromIP, validate.
  rewrite Hbad. reflexivity.
Qed.

(** A well-formed address: the fallback chain. *)
Lemma run_wellformed (net : Network) (ipAddress : string) (tr : Trace) :
  RegExp_test ipRegex ipAddress = true ->
  run net (getCoordinatesFromIP ipAddress) tr = fallback net ipAddress tr.
Proof.
  intros Hok.
  unfold getCoordinatesFromIP, validate, fallback, fallback2, fallback3,
    attempted.
  rewrite Hok. simpl negb. cbv iota.
  rewrite run_asyncFunction. run_seq. simpl run at 1. cbv beta iota.
  run_seq. rewrite run_tryProvider1. cbv zeta.
  destruct (attempt usable1 _ _ _) as [c1 | | e1]; simpl completionOf;
    cbv iota; try reflexivity.
  all: run_seq; rewrite run_tryProvider2; cbv zeta.
  all: destruct (attempt usable23 _ _ (net _ (url2 _))) as [c2 | | e2];
    simpl completionOf; cbv iota; try reflexivity.
  all: run_seq; rewrite run_tryProvider3; cbv zeta.
  all: destruct (attempt usable23 _ _ (net _ (url3 _))) as [c3 | | e3];
    simpl completionOf; cbv iota; reflexivity.
Qed.

(** ** Attempts *)

Lemma attempt_fails (usable : JSValue -> bool) (lonKey latKey : string)
    (r : Outcome Response) :
  fails usable r ->
  match attempt usable lonKey latKey r with
  | Found _ => False
  | Unusable | Failed _ => True
  end.
Proof.
  destruct r as [[[data | e]] | e]; simpl; try exact (fun _ => I).
  intros Hunusable. rewrite Hunusable. destruct data; exact I.
Qed.

Lemma attempt_usable1 (data : JSValue) :
  usable1 data = true ->
  attempt usable1 "lon" "lat" (okJson data)
  = Found (field data "lon", field data "lat").
Proof.
  intros Husable. simpl. rewrite Husable.
  destruct data; try reflexivity; discriminate Husable.
Qed.

Lemma attempt_usable23 (data : JSValue) :
  usable23 data = true ->
  attempt usable23 "longitude" "latitude" (okJson data)
  = Found (field data "longitude", field data "latitude").
Proof.
  intros Husable. simpl. rewrite Husable.
  destruct data; try reflexivity; discriminate Husable.
Qed.

Lemma hasZero_unusable1 (data : JSValue) :
  hasZero data "lon" "lat" -> usable1 data = false.
Proof.
  intros [negative [Hz | Hz]]; unfold usable1; rewrite Hz; simpl.
  - rewrite andb_false_r. reflexivity.
  - apply andb_false_r.
Qed.

Lemma hasZero_unusable23 (data : JSValue) :
  hasZero data "longitude" "latitude" -> usable23 data = false.
Proof.
  intros [negative [Hz | Hz]]; unfold usable23; rewrite Hz; simpl.
  - reflexivity.
  - apply andb_false_r.
Qed.

(** ** The resolver *)

(** The three providers are told apart by the URL of a request. *)
Lemma urls_distinct (ip1 ip2 ip3 : string) :
  url1 ip1 <> url2 ip2 /\ url1 ip1 <> url3 ip3 /\ url2 ip2 <> url3 ip3.
Proof.
  unfold url1, url2, url3. cbv [String.append].
  repeat split; intros H; congruence.
Qed.

(** C1. For a well-formed address, when the answer of provider 1 has the
    status [success] and its [lon] and [lat] are numbers other than zero,
    the resolver returns exactly the pair [[lon, lat]] of that answer, and
    the one request it makes is the request to provider 1: none goes to
    provider 2 or 3. *)
Theorem provider1_success_short_circuits (net : Network) (ipAddress : string)
    (tr : Trace) (props : gmap string JSValue) (lon lat : Number) :
  RegExp_test ipRegex ipAddress = true ->
  net (requests tr) (url1 ipAddress) = okJson (JObject props) ->
  props !! "status" = Some (JString "success") ->
  props !! "lon" = Some (JNumber lon) -> isZero lon = false ->
  props !! "lat" = Some (JNumber lat) -> isZero lat = false ->
  run net (getCoordinatesFromIP ipAddress) tr
  = (Fulfilled (Some (JNumber lon, JNumber lat)),
     tr ++ [EvFetch (url1 ipAddress);
            EvConsole LogInfo (GotCoords IpApiCom (JNumber lon, JNumber lat))])
  /\ requests (run net (getCoordinatesFromIP ipAddress) tr).2
     = requests tr ++ [url1 ipAddress]
  /\ forall url ipAddress' : string,
       url ∈ [url1 ipAddress] ->
       url <> url2 ipAddress' /\ url <> url3 ipAddress'.
Proof.
  intros Hok Hr1 Hstatus Hlon Hlon0 Hlat Hlat0.
  assert (Hrun : run net (getCoordinatesFromIP ipAddress) tr
    = (Fulfilled (Some (JNumber lon, JNumber lat)),
       tr ++ [EvFetch (url1 ipAddress);
              EvConsole LogInfo
                (GotCoords IpApiCom (JNumber lon, JNumber lat))])).
  { rewrite run_wellformed by exact Hok. unfold fallback.
    rewrite Hr1, attempt_usable1.
    - simpl. rewrite Hlon, Hlat. reflexivity.
    - unfold usable1. simpl. rewrite Hstatus, Hlon, Hlat. simpl.
      rewrite Hlon0, Hlat0. reflexivity. }
  split; [exact Hrun |]. split.
  - rewrite Hrun. simpl. rewrite requests_app. reflexivity.
  - intros url ipAddress' Hurl. apply list_elem_of_singleton in Hurl as ->.
    destruct (urls_distinct ipAddress ipAddress' ipAddress') as (H2 & H3 & _).
    split; assumption.
Qed.

(** C2. For an input that does not match the pattern, the resolver
    returns [null] at once: its only effect is the console line, and no
    request is made to any provider. *)
Theorem malformed_returns_null_without_request (net : Network)
    (ipAddress : string) (tr : Trace) :
  RegExp_test ipRegex ipAddress = false ->
  run net (getCoordinatesFromIP ipAddress) tr
  = (Fulfilled None, tr ++ [EvConsole LogError (InvalidFormat ipAddress)])
  /\ requests (run net (getCoordinatesFromIP ipAddress) tr).2 = requests tr.
Proof.
  intros Hbad. rewrite run_malformed by exact Hbad. split; [reflexivity |].
  simpl. rewrite requests_app. simpl. apply app_nil_r.
Qed.

(** A failed attempt at provider 1 leaves the rest of the chain to run,
    after at most a console line. *)
Lemma fallback_past1 (net : Network) (ipAddress : string) (tr : Trace) :
  fails usable1 (net (requests tr) (url1 ipAddress)) ->
  exists log : Trace,
    requests log = []
    /\ fallback net ipAddress tr
       = fallback2 net ipAddress (tr ++ EvFetch (url1 ipAddress) :: log).
Proof.
  intros Hfails. unfold fallback, attempted.
  pose proof (attempt_fails usable1 "lon" "lat" _ Hfails) as Ha.
  destruct (attempt usable1 _ _ _) as [c | | e]; [destruct Ha | |];
    eexists; (split; [| reflexivity]); reflexivity.
Qed.

Lemma fallback_past2 (net : Network) (ipAddress : string) (tr : Trace) :
  fails usable23 (net (requests tr) (url2 ipAddress)) ->
  exists log : Trace,
    requests log = []
    /\ fallback2 net ipAddress tr
       = fallback3 net ipAddress (tr ++ EvFetch (url2 ipAddress) :: log).
Proof.
  intros Hfails. unfold fallback2, attempted.
  pose proof (attempt_fails usable23 "longitude" "latitude" _ Hfails) as Ha.
  destruct (attempt usable23 _ _ _) as [c | | e]; [destruct Ha | |];
    eexists; (split; [| reflexivity]); reflexivity.
Qed.

Lemma fallback_past3 (net : Network) (ipAddress : string) (tr : Trace) :
  fails usable23 (net (requests tr) (url3 ipAddress)) ->
  exists log : Trace,
    requests log = []
    /\ fallback3 net ipAddress tr
       = (Fulfilled None, tr ++ EvFetch (url3 ipAddress) :: log).
Proof.
  intros Hfails. unfold fallback3, attempted.
  pose proof (attempt_fails usable23 "longitude" "latitude" _ Hfails) as Ha.
  destruct (attempt usable23 _ _ _) as [c | | e]; [destruct Ha | |];
    rewrite <- app_assoc; simpl;
    eexists; (split; [| reflexivity]); reflexivity.
Qed.

(** The requests of the chain from provider 3 on, and from provider 2 on. *)
Lemma requests_fallback3 (net : Network) (ipAddress : string) (tr : Trace) :
  requests (fallback3 net ipAddress tr).2 = requests tr ++ [url3 ipAddress].
Proof.
  unfold fallback3.
  destruct (attempt usable23 _ _ _) as [c | | e]; simpl;
    rewrite ?requests_app, requests_attempted; simpl;
    rewrite ?app_nil_r; reflexivity.
Qed.

Lemma requests_fallback2 (net : Network) (ipAddress : string) (tr : Trace) :
  exists more : list string,
    requests (fallback2 net ipAddress tr).2
    = requests tr ++ url2 ipAddress :: more.
Proof.
  unfold fallback2.
  destruct (attempt usable23 _ _ _) as [c | | e]; simpl.
  - exists []. apply requests_attempted.
  - exists [url3 ipAddress].
    rewrite requests_fallback3, requests_attempted, <- app_assoc. reflexivity.
  - exists [url3 ipAddress].
    rewrite requests_fallback3, requests_attempted, <- app_assoc. reflexivity.
Qed.

Lemma fails_hasZero1 (data : JSValue) :
  hasZero data "lon" "lat" -> fails usable1 (okJson data).
Proof. exact (hasZero_unusable1 data). Qed.

Lemma fails_hasZero23 (data : JSValue) :
  hasZero data "longitude" "latitude" -> fails usable23 (okJson data).
Proof. exact (hasZero_unusable23 data). Qed.

(** The chain after provider 1 failed, and after providers 1 and 2 did. *)
Lemma run_past1 (net : Network) (ipAddress : string) (tr : Trace) :
  RegExp_test ipRegex ipAddress = true ->
  fails usable1 (net (requests tr) (url1 ipAddress)) ->
  exists tr1 : Trace,
    requests tr1 = requests tr ++ [url1 ipAddress]
    /\ run net (getCoordinatesFromIP ipAddress) tr
       = fallback2 net ipAddress tr1.
Proof.
  intros Hok Hf1. rewrite run_wellformed by exact Hok.
  destruct (fallback_past1 net ipAddress tr Hf1) as (log1 & Hlog1 & ->).
  eexists. split; [| reflexivity].
  rewrite requests_app. simpl. rewrite Hlog1. reflexivity.
Qed.

Lemma run_past2 (net : Network) (ipAddress : string) (tr : Trace) :
  RegExp_test ipRegex ipAddress = true ->
  fails usable1 (net (requests tr) (url1 ipAddress)) ->
  fails usable23 (net (requests tr ++ [url1 ipAddress]) (url2 ipAddress)) ->
  exists tr2 : Trace,
    requests tr2 = requests tr ++ [url1 ipAddress; url2 ipAddress]
    /\ run net (getCoordinatesFromIP ipAddress) tr
       = fallback3 net ipAddress tr2.
Proof.
  intros Hok Hf1 Hf2.
  destruct (run_past1 net ipAddress tr Hok Hf1) as (tr1 & Hreq1 & ->).
  rewrite <- Hreq1 in Hf2.
  destruct (fallback_past2 net ipAddress tr1 Hf2) as (log2 & Hlog2 & ->).
  eexists. split; [| reflexivity].
  rewrite requests_app, Hreq1. simpl. rewrite Hlog2, <- app_assoc. reflexivity.
Qed.

(** All three providers fail: [null], after exactly the three requests. *)
Lemma run_exhausted (net : Network) (ipAddress : string) (tr : Trace) :
  RegExp_test ipRegex ipAddress = true ->
  fails usable1 (net (requests tr) (url1 ipAddress)) ->
  fails usable23 (net (requests tr ++ [url1 ipAddress]) (url2 ipAddress)) ->
  fails usable23
    (net (requests tr ++ [url1 ipAddress; url2 ipAddress]) (url3 ipAddress)) ->
  (run net (getCoordinatesFromIP ipAddress) tr).1 = Fulfilled None
  /\ requests (run net (getCoordinatesFromIP ipAddress) tr).2
     = requests tr ++ [url1 ipAddress; url2 ipAddress; url3 ipAddress].
Proof.
  intros Hok Hf1 Hf2 Hf3.
  destruct (run_past2 net ipAddress tr Hok Hf1 Hf2) as (tr2 & Hreq2 & ->).
  rewrite <- Hreq2 in Hf3.
  destruct (fallback_past3 net ipAddress tr2 Hf3) as (log3 & Hlog3 & ->).
  split; [reflexivity |]. simpl.
  rewrite requests_app, Hreq2. simpl. rewrite Hlog3, <- app_assoc.
  reflexivity.
Qed.

(** The chain never rejects. *)
Lemma fallback3_fulfilled (net : Network) (ipAddress : string) (tr : Trace) :
  exists c : option Coords, (fallback3 net ipAddress tr).1 = Fulfilled c.
Proof.
  unfold fallback3.
  destruct (attempt usable23 _ _ _) as [c | | e]; simpl; eexists; reflexivity.
Qed.

Lemma fallback2_fulfilled (net : Network) (ipAddress : string) (tr : Trace) :
  exists c : option Coords, (fallback2 net ipAddress tr).1 = Fulfilled c.
Proof.
  unfold fallback2.
  destruct (attempt usable23 _ _ _) as [c | | e]; simpl;
    [eexists; reflexivity | apply fallback3_fulfilled ..].
Qed.

Lemma fallback_fulfilled (net : Network) (ipAddress : string) (tr : Trace) :
  exists c : option Coords, (fallback net ipAddress tr).1 = Fulfilled c.
Proof.
  unfold fallback.
  destruct (attempt usable1 _ _ _) as [c | | e]; simpl;
    [eexists; reflexivity | apply fallback2_fulfilled ..].
Qed.

(** The promise of the resolver is always fulfilled. *)
Lemma getCoordinatesFromIP_fulfilled (net : Network) (ipAddress : string)
    (tr : Trace) :
  exists c : option Coords,
    (run net (getCoordinatesFromIP ipAddress) tr).1 = Fulfilled c.
Proof.
  destruct (RegExp_test ipRegex ipAddress) eqn:Hfmt.
  - rewrite run_wellformed by exact Hfmt. apply fallback_fulfilled.
  - rewrite run_malformed by exact Hfmt. exists None. reflexivity.
Qed.

(** C5. For a well-formed address, an answer whose longitude or latitude
    is exactly zero counts as a failure of that provider: from provider 1
    the resolver goes on to request provider 2, from provider 2 (reached
    because provider 1 failed) it goes on to request provider 3, and from
    provider 3 (reached because both failed) it returns [null]. *)
Theorem zero_coordinate_falls_through (net : Network) (ipAddress : string)
    (tr : Trace) :
  RegExp_test ipRegex ipAddress = true ->
  let r1 := net (requests tr) (url1 ipAddress) in
  let r2 := net (requests tr ++ [url1 ipAddress]) (url2 ipAddress) in
  let r3 := net (requests tr ++ [url1 ipAddress; url2 ipAddress])
              (url3 ipAddress) in
  let out := run net (getCoordinatesFromIP ipAddress) tr in
  (forall data : JSValue,
     r1 = okJson data -> hasZero data "lon" "lat" ->
     exists more : list string,
       requests out.2
       = requests tr ++ url1 ipAddress :: url2 ipAddress :: more)
  /\ (forall data : JSValue,
        fails usable1 r1 ->
        r2 = okJson data -> hasZero data "longitude" "latitude" ->
        requests out.2
        = requests tr ++ [url1 ipAddress; url2 ipAddress; url3 ipAddress])
  /\ (forall data : JSValue,
        fails usable1 r1 -> fails usable23 r2 ->
        r3 = okJson data -> hasZero data "longitude" "latitude" ->
        out.1 = Fulfilled None
        /\ requests out.2
           = requests tr ++ [url1 ipAddress; url2 ipAddress; url3 ipAddress]).
Proof.
  intros Hok r1 r2 r3 out. subst out. split; [| split].
  - intros data Hr1 Hzero.
    destruct (run_past1 net ipAddress tr Hok) as (tr1 & Hreq1 & ->).
    { fold r1. rewrite Hr1. apply fails_hasZero1, Hzero. }
    destruct (requests_fallback2 net ipAddress tr1) as [more ->].
    exists more. rewrite Hreq1, <- app_assoc. reflexivity.
  - intros data Hf1 Hr2 Hzero.
    destruct (run_past2 net ipAddress tr Hok Hf1) as (tr2 & Hreq2 & ->).
    { fold r2. rewrite Hr2. apply fails_hasZero23, Hzero. }
    rewrite requests_fallback3, Hreq2, <- app_assoc. reflexivity.
  - intros data Hf1 Hf2 Hr3 Hzero.
    apply (run_exhausted net ipAddress tr Hok Hf1 Hf2).
    fold r3. rewrite Hr3. apply fails_hasZero23, Hzero.
Qed.

(** C6. For a well-formed address, when all three providers fail or give
    unusable data, the resolver returns [null], and the requests it made
    are exactly three: one to each provider, in order. *)
Theorem all_providers_fail_returns_null (net : Network) (ipAddress : string)
    (tr : Trace) :
  RegExp_test ipRegex ipAddress = true ->
  fails usable1 (net (requests tr) (url1 ipAddress)) ->
  fails usable23 (net (requests tr ++ [url1 ipAddress]) (url2 ipAddress)) ->
  fails usable23
    (net (requests tr ++ [url1 ipAddress; url2 ipAddress]) (url3 ipAddress)) ->
  let out := run net (getCoordinatesFromIP ipAddress) tr in
  out.1 = Fulfilled None
  /\ requests out.2
     = requests tr ++ [url1 ipAddress; url2 ipAddress; url3 ipAddress]
  /\ length (requests out.2) = length (requests tr) + 3.
Proof.
  intros Hok Hf1 Hf2 Hf3 out. subst out.
  destruct (run_exhausted net ipAddress tr Hok Hf1 Hf2 Hf3) as [Hnull Hreq].
  split; [exact Hnull |]. split; [exact Hreq |].
  rewrite Hreq, length_app. reflexivity.
Qed.

(** C7. For a well-formed address, when provider 1 fails in any way (the
    request fails, the body does not parse, or the data is unusable) and
    the answer of provider 2 has truthy [longitude] and [latitude], the
    resolver returns the pair of provider 2: the failure of provider 1
    does not end the resolution.  Nor does any failure of any provider:
    on every network the promise of the resolver is fulfilled. *)
Theorem provider2_succeeds_after_provider1_fails (net : Network)
    (ipAddress : string) (tr : Trace) (props : gmap string JSValue)
    (lon lat : JSValue) :
  RegExp_test ipRegex ipAddress = true ->
  fails usable1 (net (requests tr) (url1 ipAddress)) ->
  net (requests tr ++ [url1 ipAddress]) (url2 ipAddress)
    = okJson (JObject props) ->
  props !! "longitude" = Some lon -> truthy lon = true ->
  props !! "latitude" = Some lat -> truthy lat = true ->
  let out := run net (getCoordinatesFromIP ipAddress) tr in
  out.1 = Fulfilled (Some (lon, lat))
  /\ requests out.2 = requests tr ++ [url1 ipAddress; url2 ipAddress]
  /\ forall (net' : Network) (tr' : Trace),
       exists c : option Coords,
         (run net' (getCoordinatesFromIP ipAddress) tr').1 = Fulfilled c.
Proof.
  intros Hok Hf1 Hr2 Hlon Hlon1 Hlat Hlat1 out. subst out.
  destruct (run_past1 net ipAddress tr Hok Hf1) as (tr1 & Hreq1 & ->).
  assert (Hfound : attempt usable23 "longitude" "latitude"
                     (net (requests tr1) (url2 ipAddress))
                   = Found (lon, lat)).
  { rewrite Hreq1, Hr2, attempt_usable23.
    - simpl. rewrite Hlon, Hlat. reflexivity.
    - unfold usable23. simpl. rewrite Hlon, Hlat. simpl.
      rewrite Hlon1, Hlat1. reflexivity. }
  unfold fallback2. rewrite Hfound. split; [reflexivity |]. split.
  - simpl. rewrite requests_attempted, Hreq1, <- app_assoc. reflexivity.
  - intros net' tr'. apply getCoordinatesFromIP_fulfilled.
Qed.

(** ** The pattern *)

(** The matcher finds exactly the matches. *)
Lemma matchRe_Matches (r : Regex) :
  forall (pos : nat) (s : string) (k : nat -> string -> bool),
    matchRe r pos s k = true
    <-> exists pos' s', Matches r pos s pos' s' /\ k pos' s' = true.
Proof.
  induction r as [| | | c0 | r1 IH1 r2 IH2 | r0 IH min max]; intros pos s k.
  - simpl. rewrite andb_true_iff, Nat.eqb_eq. split.
    + intros [Hpos Hk]. exists pos, s. auto.
    + intros (pos' & s' & (Hpos & -> & ->) & Hk). auto.
  - simpl. destruct s as [| c s1].
    + split.
      * intros Hk. exists pos, EmptyString. auto.
      * intros (pos' & s' & (_ & -> & ->) & Hk). exact Hk.
    + split; [discriminate |].
      intros (pos' & s' & (Hs & _) & _). discriminate Hs.
  - simpl. destruct s as [| c s1].
    + split; [discriminate |].
      intros (pos' & s' & (c & _ & Hs & _) & _). discriminate Hs.
    + rewrite andb_true_iff. split.
      * intros [Hc Hk]. exists (S pos), s1. split; [exists c |]; auto.
      * intros (pos' & s' & (c' & Hc & Hs & ->) & Hk).
        injection Hs as -> ->. auto.
  - simpl. destruct s as [| c s1].
    + split; [discriminate |].
      intros (pos' & s' & (Hs & _) & _). discriminate Hs.
    + rewrite andb_true_iff, Ascii.eqb_eq. split.
      * intros [-> Hk]. exists (S pos), s1. auto.
      * intros (pos' & s' & (Hs & ->) & Hk). injection Hs as -> ->. auto.
  - simpl. rewrite IH1. split.
    + intros (p1 & s1 & H1 & H2). apply IH2 in H2 as (pos' & s' & H2 & Hk).
      exists pos', s'. split; [exists p1, s1 |]; auto.
    + intros (pos' & s' & (p1 & s1 & H1 & H2) & Hk).
      exists p1, s1. split; [exact H1 |]. apply IH2. eauto.
  - simpl. revert min pos s.
    induction max as [| max' IHmax]; intros min pos s.
    + split.
      * intros Hk. exists pos, s. auto.
      * intros (pos' & s' & (-> & ->) & Hk). exact Hk.
    + rewrite orb_true_iff, andb_true_iff, Nat.eqb_eq, IH. split.
      * intros [(p1 & s1 & H1 & Hrep) | [-> Hk]].
        -- apply IHmax in Hrep as (pos' & s' & Hrep & Hk).
           exists pos', s'. split; [left; exists p1, s1 |]; auto.
        -- exists pos, s. auto.
      * intros (pos' & s' & [(p1 & s1 & H1 & Hrep) | (-> & -> & ->)] & Hk).
        -- left. exists p1, s1. split; [exact H1 |]. apply IHmax. eauto.
        -- right. auto.
Qed.

Lemma Matches_Rep_S (r : Regex) (min max : nat) (pos : nat) (s : string)
    (pos' : nat) (s' : string) :
  Matches (Rep r (S min) (S max)) pos s pos' s'
  <-> exists p1 s1,
        Matches r pos s p1 s1 /\ Matches (Rep r min max) p1 s1 pos' s'.
Proof.
  simpl. split.
  - intros [H | (Hmin & _)]; [exact H | discriminate Hmin].
  - intros H. left. exact H.
Qed.

Ltac split_andb :=
  repeat match goal with
         | H : _ && _ = true |- _ => apply andb_true_iff in H as [? ?]
         end.

(** [\d{1,3}] takes a group of one to three digits off the input. *)
Lemma Matches_group (pos : nat) (s : string) (pos' : nat) (s' : string) :
  Matches (Rep Digit 1 3) pos s pos' s'
  <-> exists g, isGroup g = true /\ s = g +:+ s'
                /\ pos' = (pos + String.length g)%nat.
Proof.
  split.
  - simpl.
    intros [(p1 & s1 & (c1 & Hc1 & -> & ->) & Hrest) | (Hmin & _)];
      [| discriminate Hmin].
    destruct Hrest
      as [(p2 & s2 & (c2 & Hc2 & -> & ->) & Hrest) | (_ & -> & ->)].
    + destruct Hrest
        as [(p3 & s3 & (c3 & Hc3 & -> & ->) & (-> & ->)) | (_ & -> & ->)].
      * exists (String c1 (String c2 (String c3 EmptyString))).
        unfold isGroup. simpl. rewrite Hc1, Hc2, Hc3.
        repeat split. lia.
      * exists (String c1 (String c2 EmptyString)).
        unfold isGroup. simpl. rewrite Hc1, Hc2.
        repeat split. lia.
    + exists (String c1 EmptyString).
      unfold isGroup. simpl. rewrite Hc1.
      repeat split. lia.
  - intros (g & Hg & -> & ->). unfold isGroup in Hg.
    destruct g as [| c1 [| c2 [| c3 [| c4 g]]]]; simpl in Hg;
      rewrite ?andb_true_r, ?andb_false_r in Hg; try discriminate Hg;
      split_andb.
    + simpl. left. exists (S pos), s'. split; [exists c1; auto |].
      right. repeat split. lia.
    + simpl. left. exists (S pos), (String c2 s'). split; [exists c1; auto |].
      left. exists (S (S pos)), s'. split; [exists c2; auto |].
      right. repeat split. lia.
    + simpl. left. exists (S pos), (String c2 (String c3 s')).
      split; [exists c1; auto |].
      left. exists (S (S pos)), (String c3 s'). split; [exists c2; auto |].
      left. exists (S (S (S pos))), s'. split; [exists c3; auto |].
      split; [lia | reflexivity].
Qed.

Lemma append_nil_r (s : string) : s +:+ "" = s.
Proof.
  induction s as [| c s IH]; [reflexivity |].
  change (String c (s +:+ "") = String c s). rewrite IH. reflexivity.
Qed.

(** [\d{1,3}\.] takes a group and a dot off the input. *)
Lemma Matches_dotted (pos : nat) (s : string) (pos' : nat) (s' : string) :
  Matches (Seq (Rep Digit 1 3) (Lit ".")) pos s pos' s'
  <-> exists g, isGroup g = true /\ s = g +:+ "." +:+ s'
                /\ pos' = S (pos + String.length g).
Proof.
  split.
  - intros (p1 & s1 & Hg & Hdot).
    apply Matches_group in Hg as (g & Hg & -> & ->).
    destruct Hdot as [-> ->]. exists g. auto.
  - intros (g & Hg & -> & ->).
    exists (pos + String.length g)%nat, ("." +:+ s').
    split; [apply Matches_group; exists g; auto |].
    split; reflexivity.
Qed.

(** The pattern matches at index 0 exactly the dotted quads. *)
Lemma Matches_ipRegex (s : string) :
  (exists pos' s', Matches ipRegex 0 s pos' s') <-> dottedQuad s.
Proof.
  unfold ipRegex, dottedQuad. split.
  - intros (pos' & s' & p0 & s0 & (_ & -> & ->) & p3 & s3 & Hthree & Hlast).
    apply Matches_Rep_S in Hthree as (p1 & s1 & Ha & Hthree).
    apply Matches_Rep_S in Hthree as (p2 & s2 & Hb & Hthree).
    apply Matches_Rep_S in Hthree as (p3' & s3' & Hc & (-> & ->)).
    destruct Hlast as (p4 & s4 & Hd & (-> & _ & _)).
    apply Matches_dotted in Ha as (a & Ha & -> & ->).
    apply Matches_dotted in Hb as (b & Hb & -> & ->).
    apply Matches_dotted in Hc as (c & Hc & -> & ->).
    apply Matches_group in Hd as (d & Hd & -> & ->).
    exists a, b, c, d. repeat (split; [assumption |]).
    rewrite append_nil_r. reflexivity.
  - intros (a & b & c & d & Ha & Hb & Hc & Hd & ->).
    rewrite <- (append_nil_r d).
    eexists _, EmptyString. eexists 0%nat, _. split; [repeat split |].
    eexists _, (d +:+ ""). split.
    + apply Matches_Rep_S.
      eexists _, (b +:+ "." +:+ c +:+ "." +:+ d +:+ ""). split.
      { apply Matches_dotted. exists a. auto. }
      apply Matches_Rep_S. eexists _, (c +:+ "." +:+ d +:+ ""). split.
      { apply Matches_dotted. exists b. auto. }
      apply Matches_Rep_S. eexists _, (d +:+ ""). split.
      { apply Matches_dotted. exists c. auto. }
      split; reflexivity.
    + eexists _, EmptyString. split.
      { apply Matches_group. exists d. auto. }
      repeat split.
Qed.

Lemma searchFrom_ipRegex_later (pos : nat) (s : string) :
  searchFrom ipRegex (S pos) s = false.
Proof.
  revert pos. induction s as [| c s IH]; intros pos.
  - reflexivity.
  - change (false || searchFrom ipRegex (S (S pos)) s = false).
    rewrite IH. reflexivity.
Qed.

(** [ipRegex.test(s)] holds exactly of the dotted quads. *)
Lemma RegExp_test_ipRegex (s : string) :
  RegExp_test ipRegex s = true <-> dottedQuad s.
Proof.
  rewrite <- Matches_ipRegex. unfold RegExp_test.
  assert (Hsearch : searchFrom ipRegex 0 s
                    = matchRe ipRegex 0 s (fun _ _ => true)).
  { destruct s as [| c s].
    - apply orb_false_r.
    - change (matchRe ipRegex 0 (String c s) (fun _ _ => true)
              || searchFrom ipRegex 1 s
              = matchRe ipRegex 0 (String c s) (fun _ _ => true)).
      rewrite searchFrom_ipRegex_later. apply orb_false_r. }
  rewrite Hsearch, matchRe_Matches. split.
  - intros (pos' & s' & H & _). eauto.
  - intros (pos' & s' & H). eauto.
Qed.

(** The chain begins with the request to provider 1. *)
Lemma trace_fallback3 (net : Network) (ipAddress : string) (tr : Trace) :
  exists rest : Trace,
    (fallback3 net ipAddress tr).2 = tr ++ EvFetch (url3 ipAddress) :: rest.
Proof.
  unfold fallback3, attempted.
  destruct (attempt usable23 _ _ _) as [c | | e]; simpl;
    rewrite <- ?app_assoc; simpl; eexists; reflexivity.
Qed.

Lemma trace_fallback2 (net : Network) (ipAddress : string) (tr : Trace) :
  exists rest : Trace,
    (fallback2 net ipAddress tr).2 = tr ++ EvFetch (url2 ipAddress) :: rest.
Proof.
  unfold fallback2, attempted.
  destruct (attempt usable23 _ _ _) as [c | | e]; simpl.
  - eexists; reflexivity.
  - destruct (trace_fallback3 net ipAddress (tr ++ [EvFetch (url2 ipAddress)]))
      as [rest ->].
    rewrite <- app_assoc. simpl. eexists; reflexivity.
  - match goal with
    | |- context [fallback3 net ipAddress ?t] =>
        destruct (trace_fallback3 net ipAddress t) as [rest ->]
    end.
    rewrite <- app_assoc. simpl. eexists; reflexivity.
Qed.

Lemma trace_fallback (net : Network) (ipAddress : string) (tr : Trace) :
  exists rest : Trace,
    (fallback net ipAddress tr).2 = tr ++ EvFetch (url1 ipAddress) :: rest.
Proof.
  unfold fallback, attempted.
  destruct (attempt usable1 _ _ _) as [c | | e]; simpl.
  - eexists; reflexivity.
  - destruct (trace_fallback2 net ipAddress (tr ++ [EvFetch (url1 ipAddress)]))
      as [rest ->].
    rewrite <- app_assoc. simpl. eexists; reflexivity.
  - match goal with
    | |- context [fallback2 net ipAddress ?t] =>
        destruct (trace_fallback2 net ipAddress t) as [rest ->]
    end.
    rewrite <- app_assoc. simpl. eexists; reflexivity.
Qed.

Example dottedQuad_999 : dottedQuad "999.999.999.999".
Proof. exists "999", "999", "999", "999". repeat split. Qed.

(** C9. Every string of four groups of one to three decimal digits
    separated by dots passes the format check, whatever the value of its
    groups, [999.999.999.999] included, and the resolver then goes on to
    request provider 1 instead of returning from the check. *)
Theorem dotted_quad_reaches_provider1 (net : Network) (ipAddress : string)
    (tr : Trace) :
  dottedQuad ipAddress ->
  RegExp_test ipRegex ipAddress = true
  /\ exists rest : Trace,
       (run net (getCoordinatesFromIP ipAddress) tr).2
       = tr ++ EvFetch (url1 ipAddress) :: rest.
Proof.
  intros Hquad. apply RegExp_test_ipRegex in Hquad as Hok.
  split; [exact Hok |].
  rewrite run_wellformed by exact Hok. apply trace_fallback.
Qed.

(** ** The flow builder *)

Lemma run_forOfPairs {R : Type} (net : Network) (ipPairs : list IpPair) :
  forall (flows : list Flow) (tr : Trace),
    run net (forOfPairs (R := R) ipPairs flows) tr
    = (Normal (flows ++ omap flowOf (resolvePairs net ipPairs tr).1),
       (resolvePairs net ipPairs tr).2).
Proof.
  induction ipPairs as [| ipPair rest IH]; intros flows tr.
  - simpl. rewrite app_nil_r. reflexivity.
  - cbn [forOfPairs resolvePairs].
    run_seq. rewrite run_await.
    destruct (getCoordinatesFromIP_fulfilled net (srcIP ipPair) tr)
      as [s Hs].
    destruct (run net (getCoordinatesFromIP (srcIP ipPair)) tr)
      as [os tr1] eqn:Hrun1.
    simpl in Hs. subst os.
    run_seq. rewrite run_await.
    destruct (getCoordinatesFromIP_fulfilled net (dstIP ipPair) tr1)
      as [d Hd].
    destruct (run net (getCoordinatesFromIP (dstIP ipPair)) tr1)
      as [od tr2] eqn:Hrun2.
    simpl in Hd. subst od.
    run_seq.
    destruct (resolvePairs net rest tr2) as [sds tr3] eqn:Hrest.
    destruct s as [s |], d as [d |]; simpl; rewrite IH, Hrest; simpl;
      rewrite <- ?app_assoc; reflexivity.
Qed.

Lemma run_createFlowsFromIPs (net : Network) (ipPairs : list IpPair)
    (tr : Trace) :
  run net (createFlowsFromIPs ipPairs) tr
  = (Fulfilled (omap flowOf (resolvePairs net ipPairs tr).1),
     (resolvePairs net ipPairs tr).2).
Proof.
  unfold createFlowsFromIPs. rewrite run_asyncFunction. run_seq.
  rewrite run_forOfPairs. reflexivity.
Qed.

Lemma length_resolvePairs (net : Network) (ipPairs : list IpPair) :
  forall tr : Trace,
    length (resolvePairs net ipPairs tr).1 = length ipPairs.
Proof.
  induction ipPairs as [| ipPair rest IH]; intros tr; [reflexivity |].
  simpl.
  destruct (run net (getCoordinatesFromIP (srcIP ipPair)) tr) as [s tr1].
  destruct (run net (getCoordinatesFromIP (dstIP ipPair)) tr1) as [d tr2].
  specialize (IH tr2).
  destruct (resolvePairs net rest tr2) as [sds tr3].
  simpl in *. rewrite IH. reflexivity.
Qed.

Lemma length_omap_le {A B : Type} (f : A -> option B) (l : list A) :
  length (omap f l) <= length l.
Proof.
  induction l as [| a l IH]; [reflexivity |].
  csimpl. destruct (f a); simpl; lia.
Qed.

Lemma flowOf_resolved (sd : Outcome (option Coords) * Outcome (option Coords))
    (flow : Flow) :
  flowOf sd = Some flow <->
  exists s d : Coords,
    sd = (Fulfilled (Some s), Fulfilled (Some d))
    /\ flow = {| src := Some s; dst := Some d |}.
Proof.
  split.
  - destruct sd as [[[s |] | es] [[d |] | ed]]; simpl; try discriminate.
    intros [= <-]. eauto.
  - intros (s & d & -> & ->). reflexivity.
Qed.

(** C4. The flow builder outputs a flow for a pair exactly when both of
    the pair's resolutions returned coordinates: its output is the list
    of the flows of those pairs, in the order of the pairs.  A pair with a
    failed resolution leaves no entry, and the output is at most as long
    as the input. *)
Theorem flows_are_the_resolved_pairs (net : Network) (ipPairs : list IpPair)
    (tr : Trace) :
  let resolutions := (resolvePairs net ipPairs tr).1 in
  let flows := omap flowOf resolutions in
  (run net (createFlowsFromIPs ipPairs) tr).1 = Fulfilled flows
  /\ length resolutions = length ipPairs
  /\ length flows <= length ipPairs
  /\ (forall flow : Flow,
        flow ∈ flows <->
        exists s d : Coords,
          (Fulfilled (Some s), Fulfilled (Some d)) ∈ resolutions
          /\ flow = {| src := Some s; dst := Some d |}).
Proof.
  intros resolutions flows. subst flows resolutions.
  rewrite run_createFlowsFromIPs. split; [reflexivity |].
  split; [apply length_resolvePairs |].
  split.
  - rewrite <- (length_resolvePairs net ipPairs tr). apply length_omap_le.
  - intros flow. rewrite list_elem_of_omap. split.
    + intros (sd & Hin & Hflow).
      apply flowOf_resolved in Hflow as (s & d & -> & ->). eauto.
    + intros (s & d & Hin & ->). eexists. split; [exact Hin | reflexivity].
Qed.

Lemma resolveEach_endpoints (net : Network) (ipPairs : list IpPair) :
  forall tr : Trace,
    resolveEach net (endpoints ipPairs) tr
    = (flat_map (fun sd => [sd.1; sd.2]) (resolvePairs net ipPairs tr).1,
       (resolvePairs net ipPairs tr).2).
Proof.
  induction ipPairs as [| ipPair rest IH]; intros tr; [reflexivity |].
  simpl.
  destruct (run net (getCoordinatesFromIP (srcIP ipPair)) tr) as [s tr1].
  destruct (run net (getCoordinatesFromIP (dstIP ipPair)) tr1) as [d tr2].
  rewrite IH.
  destruct (resolvePairs net rest tr2) as [sds tr3]. reflexivity.
Qed.

Lemma length_endpoints (ipPairs : list IpPair) :
  length (endpoints ipPairs) = 2 * length ipPairs.
Proof.
  induction ipPairs as [| ipPair rest IH]; simpl; lia.
Qed.

Lemma length_resolveEach (net : Network) (ipAddresses : list string) :
  forall tr : Trace,
    length (resolveEach net ipAddresses tr).1 = length ipAddresses.
Proof.
  induction ipAddresses as [| ipAddress rest IH]; intros tr; [reflexivity |].
  simpl.
  destruct (run net (getCoordinatesFromIP ipAddress) tr) as [o tr1].
  specialize (IH tr1). destruct (resolveEach net rest tr1) as [os tr2].
  simpl in *. rewrite IH. reflexivity.
Qed.

(** C10. What the flow builder does is what invoking the resolver on the
    source and then the destination of every pair in turn does, whatever
    the invocations return: the destination is resolved also when the
    source resolution returned [null], and a list of n pairs makes
    exactly 2n invocations of the resolver. *)
Theorem both_endpoints_always_resolved (net : Network)
    (ipPairs : list IpPair) (tr : Trace) :
  let invocations := resolveEach net (endpoints ipPairs) tr in
  (run net (createFlowsFromIPs ipPairs) tr).2 = invocations.2
  /\ length invocations.1 = 2 * length ipPairs
  /\ invocations.1
     = flat_map (fun sd => [sd.1; sd.2]) (resolvePairs net ipPairs tr).1
  /\ (run net (createFlowsFromIPs ipPairs) tr).1
     = Fulfilled (omap flowOf (resolvePairs net ipPairs tr).1).
Proof.
  intros invocations. subst invocations.
  rewrite run_createFlowsFromIPs. split.
  - rewrite resolveEach_endpoints. reflexivity.
  - split; [rewrite length_resolveEach; apply length_endpoints |].
    split; [rewrite resolveEach_endpoints |]; reflexivity.
Qed.

(** ** Bounds on the number of requests *)

Lemma bounded_mono {A : Type} (p : Prog A) :
  forall n m : nat, n <= m -> bounded n p -> bounded m p.
Proof.
  induction p as [a | url k IH | level message k IH]; intros n m Hle; simpl.
  - exact (fun H => H).
  - destruct n as [| n]; [intros [] |].
    destruct m as [| m]; [lia |].
    intros Hk r. apply (IH r n m); [lia | apply Hk].
  - apply IH, Hle.
Qed.

Lemma bounded_bind {A B : Type} (p : Prog A) (f : A -> Prog B) (m : nat) :
  (forall a, bounded m (f a)) ->
  forall n : nat, bounded n p -> bounded (n + m) (bind p f).
Proof.
  intros Hf.
  induction p as [a | url k IH | level message k IH]; intros n; simpl.
  - intros _. apply (bounded_mono _ m); [lia | apply Hf].
  - destruct n as [| n]; [intros [] |].
    intros Hk r. apply IH, Hk.
  - apply IH.
Qed.

Lemma bounded_andThen {R A B : Type} (c : JS R A) (f : A -> JS R B)
    (n m : nat) :
  bounded n c -> (forall a, bounded m (f a)) -> bounded (n + m) (andThen c f).
Proof.
  intros Hc Hf. unfold andThen. apply bounded_bind; [| exact Hc].
  intros [a | r | e]; [apply Hf | exact I | exact I].
Qed.

Lemma quiet_andThen {R A B : Type} (c : JS R A) (f : A -> JS R B) :
  bounded 0 c -> (forall a, bounded 0 (f a)) -> bounded 0 (andThen c f).
Proof. apply (bounded_andThen c f 0 0). Qed.

Lemma bounded_tryCatch {R A : Type} (body : JS R A)
    (handler : JSError -> JS R A) (n : nat) :
  bounded n body -> (forall e, bounded 0 (handler e)) ->
  bounded n (tryCatch body handler).
Proof.
  intros Hbody Hhandler. unfold tryCatch.
  rewrite <- (Nat.add_0_r n). apply bounded_bind; [| exact Hbody].
  intros [a | r | e]; [exact I | exact I | apply Hhandler].
Qed.

Lemma quiet_eval {R A : Type} (o : Outcome A) : bounded 0 (eval (R := R) o).
Proof. destruct o; exact I. Qed.

Lemma quiet_andAlso {R : Type} (a b : JS R JSValue) :
  bounded 0 a -> bounded 0 b -> bounded 0 (andAlso a b).
Proof.
  intros Ha Hb. unfold andAlso. apply quiet_andThen; [exact Ha |].
  intros v. destruct (truthy v); [exact Hb | exact I].
Qed.

Lemma quiet_when {R : Type} (test : JS R JSValue) (body : JS R unit) :
  bounded 0 test -> bounded 0 body -> bounded 0 (when test body).
Proof.
  intros Htest Hbody. unfold when. apply quiet_andThen; [exact Htest |].
  intros v. destruct (truthy v); [exact Hbody | exact I].
Qed.

Lemma bounded_asyncFunction {R : Type} (body : JS R Empty_set) (n : nat) :
  bounded n body -> bounded n (asyncFunction body).
Proof.
  intros Hbody. unfold asyncFunction.
  rewrite <- (Nat.add_0_r n). apply bounded_bind; [| exact Hbody].
  intros [[] | r | e]; exact I.
Qed.

(** A piece of code built from the request-free operations is quiet. *)
Ltac quiet :=
  repeat match goal with
         | |- bounded 0 (andThen _ _) => apply quiet_andThen; [| intros ?]
         | |- bounded 0 (when _ _) => apply quiet_when
         | |- bounded 0 (andAlso _ _) => apply quiet_andAlso
         | |- bounded 0 (eval _) => apply quiet_eval
         | |- bounded 0 (await (response_json ?response)) =>
             destruct response as [[? | ?]]; exact I
         | |- bounded 0 _ => exact I
         end.

(** One attempt at a provider makes one request. *)
Ltac one_request :=
  apply bounded_tryCatch; [| intros e; exact I];
  apply (bounded_andThen _ _ 1 0); [intros r; destruct r; exact I |];
  intros response; quiet.

Lemma bounded_tryProvider1 (ipAddress : string) :
  bounded 1 (tryProvider1 ipAddress).
Proof. unfold tryProvider1. one_request. Qed.

Lemma bounded_tryProvider2 (ipAddress : string) :
  bounded 1 (tryProvider2 ipAddress).
Proof. unfold tryProvider2. one_request. Qed.

Lemma bounded_tryProvider3 (ipAddress : string) :
  bounded 1 (tryProvider3 ipAddress).
Proof. unfold tryProvider3. one_request. Qed.

(** The resolver makes at most three requests. *)
Lemma bounded_getCoordinatesFromIP (ipAddress : string) :
  bounded 3 (getCoordinatesFromIP ipAddress).
Proof.
  unfold getCoordinatesFromIP. apply bounded_asyncFunction.
  apply (bounded_andThen _ _ 0 3).
  { unfold validate. destruct (negb _); exact I. }
  intros _. apply (bounded_andThen _ _ 1 2); [apply bounded_tryProvider1 |].
  intros _. apply (bounded_andThen _ _ 1 1); [apply bounded_tryProvider2 |].
  intros _. apply (bounded_andThen _ _ 1 0); [apply bounded_tryProvider3 |].
  intros _. exact I.
Qed.

Lemma bounded_entryOf (ipAddress : string) : bounded 3 (entryOf ipAddress).
Proof.
  unfold entryOf. apply bounded_asyncFunction.
  apply (bounded_andThen _ _ 3 0); [| intros c; exact I].
  unfold await. rewrite <- (Nat.add_0_r 3).
  apply bounded_bind; [| apply bounded_getCoordinatesFromIP].
  intros [c | e]; exact I.
Qed.

(** ** Tasks *)

Lemma advance_answered {A : Type} (p : Prog A) :
  forall tr : Trace, (advance p tr).1 = answered p [].
Proof.
  induction p as [a | url k IH | level message k IH]; intros tr; simpl;
    [reflexivity | reflexivity | apply IH].
Qed.

Lemma answered_app {A : Type} (p : Prog A) :
  forall rs rs' : list (Outcome Response),
    answered p (rs ++ rs') = answered (answered p rs) rs'.
Proof.
  induction p as [a | url k IH | level message k IH]; intros rs rs'; simpl.
  - reflexivity.
  - destruct rs as [| r rs]; simpl; [reflexivity | apply IH].
  - apply IH.
Qed.

Lemma answered_suspended {A : Type} (p : Prog A) :
  forall rs : list (Outcome Response), suspended (answered p rs).
Proof.
  induction p as [a | url k IH | level message k IH]; intros rs; simpl.
  - exact I.
  - destruct rs as [| r rs]; [exact I | apply IH].
  - apply IH.
Qed.

Lemma bounded_answered {A : Type} (p : Prog A) :
  forall (n : nat) (rs : list (Outcome Response)),
    bounded n p -> bounded n (answered p rs).
Proof.
  induction p as [a | url k IH | level message k IH]; intros n rs; simpl.
  - exact (fun H => H).
  - destruct rs as [| r rs]; [exact (fun H => H) |].
    destruct n as [| n]; [intros [] |].
    intros Hk. apply IH. apply (bounded_mono _ n); [lia | apply Hk].
  - apply IH.
Qed.

Lemma answeredBy_nil {A : Type} (ok : string -> Outcome Response -> Prop)
    (p : Prog A) :
  answeredBy ok p [].
Proof.
  induction p as [a | url k IH | level message k IH]; simpl;
    [exact I | exact I | exact IH].
Qed.

(** One more answer, to the request on which the task is suspended. *)
Lemma answeredBy_snoc {A : Type} (ok : string -> Outcome Response -> Prop)
    (p : Prog A) :
  forall (rs : list (Outcome Response)) (url : string)
         (k : Outcome Response -> Prog A) (r : Outcome Response),
    answeredBy ok p rs -> answered p rs = Fetch url k -> ok url r ->
    answeredBy ok p (rs ++ [r]).
Proof.
  induction p as [a | url' k' IH | level message k' IH];
    intros rs url k r; simpl.
  - discriminate.
  - destruct rs as [| r' rs]; simpl.
    + intros _ [= -> ->] Hok. split; [exact Hok | apply answeredBy_nil].
    + intros [Hok' Hrs] Hfetch Hok. split; [exact Hok' |].
      apply (IH r' rs url k r Hrs Hfetch Hok).
  - apply IH.
Qed.

(** A task that finished did so with the value that the program returns
    when run alone against the answers the task received. *)
Lemma answered_run {A : Type} (p : Prog A) :
  forall (rs : list (Outcome Response)) (net : Network) (tr : Trace) (a : A),
    (forall (j : nat) (r : Outcome Response) (history : list string)
            (url : string),
       rs !! j = Some r -> length history = length (requests tr) + j ->
       net history url = r) ->
    answered p rs = Ret a -> (run net p tr).1 = a.
Proof.
  induction p as [a' | url k IH | level message k IH];
    intros rs net tr a Hnet; simpl.
  - intros [= ->]. reflexivity.
  - destruct rs as [| r rs]; [discriminate |].
    intros Hret.
    rewrite (Hnet 0 r (requests tr) url); [| reflexivity | lia].
    apply (IH r rs); [| exact Hret].
    intros j r' history url' Hj Hlen.
    apply (Hnet (S j)); [exact Hj |].
    rewrite requests_app, length_app in Hlen. simpl in Hlen. lia.
  - intros Hret. apply (IH rs); [| exact Hret].
    intros j r' history url' Hj Hlen.
    apply (Hnet j); [exact Hj |].
    rewrite requests_app, length_app in Hlen. simpl in Hlen. lia.
Qed.

Lemma answered_scripted {A : Type} (p : Prog A)
    (rs : list (Outcome Response)) (a : A) :
  answered p rs = Ret a -> (run (scripted rs) p []).1 = a.
Proof.
  apply answered_run. intros j r history url Hj Hlen. unfold scripted.
  simpl in Hlen. rewrite Hlen, Hj. reflexivity.
Qed.

(** When the answers depend on the URL alone, so does the value. *)
Lemma answered_stateless {A : Type} (respond : string -> Outcome Response)
    (p : Prog A) :
  forall (rs : list (Outcome Response)) (tr : Trace) (a : A),
    answeredBy (answersFrom respond) p rs ->
    answered p rs = Ret a -> (run (stateless respond) p tr).1 = a.
Proof.
  induction p as [a' | url k IH | level message k IH]; intros rs tr a; simpl.
  - intros _ [= ->]. reflexivity.
  - destruct rs as [| r rs]; [discriminate |].
    intros [-> Hrs] Hret. apply (IH _ rs); assumption.
  - apply IH.
Qed.

(** ** The pool *)

Lemma spawn_answered {A : Type} (ps : list (Prog A)) :
  forall tr : Trace, (spawn ps tr).1 = (fun p => answered p []) <$> ps.
Proof.
  induction ps as [| p ps IH]; intros tr; [reflexivity |].
  simpl. pose proof (advance_answered p tr) as Hp.
  destruct (advance p tr) as [t tr1]. specialize (IH tr1).
  destruct (spawn ps tr1) as [ts tr2]. simpl in *. rewrite Hp, IH.
  reflexivity.
Qed.

Lemma pending_lookup {A : Type} (tasks : list (Prog A)) :
  forall (j c i : nat) (url : string),
    pending j tasks !! c = Some (i, url) ->
    j <= i /\ exists k, tasks !! (i - j) = Some (Fetch url k).
Proof.
  induction tasks as [| t tasks IH]; intros j c i url; [discriminate |].
  assert (Hlater : forall c' : nat,
            pending (S j) tasks !! c' = Some (i, url) ->
            j <= i
            /\ exists k, (t :: tasks) !! (i - j) = Some (Fetch url k)).
  { intros c' H. apply IH in H as [Hle [k Hk]]. split; [lia |].
    exists k. replace (i - j) with (S (i - S j)) by lia. exact Hk. }
  destruct t as [a | url' k' | level message k']; simpl;
    [apply Hlater | | apply Hlater].
  destruct c as [| c]; simpl.
  - intros [= -> ->]. split; [lia |]. exists k'.
    rewrite Nat.sub_diag. reflexivity.
  - apply Hlater.
Qed.

Lemma settled_fulfilled {A : Type} (tasks : list (Prog (Outcome A))) :
  forall results : list A,
    settled tasks = Some (Fulfilled results) ->
    Forall2 (fun t a => t = Ret (Fulfilled a)) tasks results.
Proof.
  induction tasks as [| t tasks IH]; intros results; simpl.
  - intros [= <-]. constructor.
  - destruct t as [[a | e] | url k | level message k]; simpl.
    + destruct (settled tasks) as [[l | e] |]; try discriminate.
      intros [= <-]. constructor; [reflexivity | apply IH; reflexivity].
    + discriminate.
    + destruct (settled tasks) as [[l | e] |]; discriminate.
    + destruct (settled tasks) as [[l | e] |]; discriminate.
Qed.

Lemma settled_rejected {A : Type} (tasks : list (Prog (Outcome A)))
    (e : JSError) :
  settled tasks = Some (Rejected e) -> Ret (Rejected e) ∈ tasks.
Proof.
  induction tasks as [| t tasks IH]; simpl; [discriminate |].
  destruct t as [[a | e'] | url k | level message k]; simpl.
  - destruct (settled tasks) as [[l | e''] |]; try discriminate.
    intros [= ->]. apply elem_of_cons. right. apply IH. reflexivity.
  - intros [= ->]. apply elem_of_cons. left. reflexivity.
  - destruct (settled tasks) as [[l | e''] |]; try discriminate.
    intros [= ->]. apply elem_of_cons. right. apply IH. reflexivity.
  - destruct (settled tasks) as [[l | e''] |]; try discriminate.
    intros [= ->]. apply elem_of_cons. right. apply IH. reflexivity.
Qed.

Lemma settled_pending {A : Type} (tasks : list (Prog (Outcome A))) :
  forall j : nat,
    settled tasks = None -> Forall suspended tasks -> pending j tasks <> [].
Proof.
  induction tasks as [| t tasks IH]; intros j; simpl; [discriminate |].
  intros Hsettled Hsusp. apply Forall_cons in Hsusp as [Ht Hsusp].
  destruct t as [[a | e] | url k | level message k]; simpl in *.
  - apply IH; [| exact Hsusp].
    destruct (settled tasks) as [[l | e] |]; [discriminate .. | reflexivity].
  - discriminate.
  - discriminate.
  - destruct Ht.
Qed.

Lemma sum_list_insert_pred (ns : list nat) :
  forall i n : nat,
    ns !! i = Some (S n) -> S (sum_list (<[i := n]> ns)) = sum_list ns.
Proof.
  induction ns as [| m ns IH]; intros i n; [discriminate |].
  destruct i as [| i]; simpl.
  - intros [= ->]. reflexivity.
  - intros H. rewrite <- (IH i n H). lia.
Qed.

Section Pool.
Context {A : Type}.
Variable sched : Scheduler.
Variable ok : string -> Outcome Response -> Prop.
Hypothesis sched_obeys : obeys ok sched.

(** The programs of the pool, none of which can reject. *)
Variable ps : list (Prog (Outcome A)).
Hypothesis fulfils :
  forall p rs e, p ∈ ps -> answered p rs <> Ret (Rejected e).

(** Once [Promise.all] settles, it is fulfilled, with a value of each
    program in order. *)
Lemma pool_settled (tasks : list (Prog (Outcome A)))
    (o : Outcome (list A)) :
  Forall2 (linked ok) ps tasks ->
  settled tasks = Some o ->
  exists results : list A,
    o = Fulfilled results
    /\ Forall2 (fun p a => linked ok p (Ret (Fulfilled a))) ps results.
Proof using fulfils.
  intros Hlinked Hsettled. destruct o as [results | e].
  - exists results. split; [reflexivity |].
    apply settled_fulfilled in Hsettled.
    eapply Forall2_trans; [| exact Hlinked | exact Hsettled].
    intros p t a Hpt ->. exact Hpt.
  - apply settled_rejected in Hsettled.
    apply list_elem_of_lookup in Hsettled as [i Hi].
    destruct (Forall2_lookup_r _ _ _ _ _ Hlinked Hi)
      as (p & Hp & rs & Hrs & _).
    exfalso. apply (fulfils p rs e); [| symmetry; exact Hrs].
    apply list_elem_of_lookup. exists i. exact Hp.
Qed.

(** While it is pending, one request settles and its task runs on: the
    tasks stay linked to their programs, and the requests that remain
    to them are one fewer. *)
Lemma pool_step (fuel : nat) (tasks : list (Prog (Outcome A)))
    (ns : list nat) (tr : Trace) :
  Forall2 (linked ok) ps tasks ->
  Forall2 bounded ns tasks ->
  settled tasks = None ->
  exists (tasks' : list (Prog (Outcome A))) (ns' : list nat) (tr' : Trace),
    promiseAll sched (S fuel) tasks tr = promiseAll sched fuel tasks' tr'
    /\ Forall2 (linked ok) ps tasks'
    /\ Forall2 bounded ns' tasks'
    /\ S (sum_list ns') = sum_list ns.
Proof using sched_obeys.
  intros Hlinked Hwithin Hsettled. simpl. rewrite Hsettled.
  assert (Hsusp : Forall suspended tasks).
  { apply (Forall2_Forall_r _ _ _ _ Hlinked), Forall_forall.
    intros p _ t (rs & -> & _). apply answered_suspended. }
  pose proof (settled_pending tasks 0 Hsettled Hsusp) as Hwaiting.
  pose proof (sched_obeys tr (pending 0 tasks)) as Hobeys.
  destruct (sched tr (pending 0 tasks)) as [choice r]. simpl in Hobeys.
  destruct (lookup_lt_is_Some_2 (pending 0 tasks)
              (choice mod length (pending 0 tasks))) as [[i url] Hchoice].
  { apply Nat.mod_upper_bound. destruct (pending 0 tasks); [congruence |].
    discriminate. }
  rewrite Hchoice. specialize (Hobeys i url Hchoice).
  destruct (pending_lookup tasks 0 _ i url Hchoice) as [_ [k Hk]].
  rewrite Nat.sub_0_r in Hk. rewrite Hk.
  destruct (Forall2_lookup_r _ _ _ _ _ Hwithin Hk) as (n & Hn & Hbound).
  destruct (Forall2_lookup_r _ _ _ _ _ Hlinked Hk)
    as (p & Hp & rs & Hrs & Hby).
  destruct n as [| n]; [destruct Hbound |].
  pose proof (advance_answered (k r) tr) as Ht.
  destruct (advance (k r) tr) as [t tr1]. simpl in Ht.
  exists (<[i := t]> tasks), (<[i := n]> ns), tr1.
  split; [reflexivity |]. split; [| split].
  - rewrite <- (list_insert_id ps i p Hp).
    apply Forall2_insert; [exact Hlinked |].
    exists (rs ++ [r]). split.
    + rewrite answered_app, <- Hrs. exact Ht.
    + apply (answeredBy_snoc ok p rs url k r Hby); [| exact Hobeys].
      symmetry. exact Hrs.
  - apply Forall2_insert; [exact Hwithin |].
    rewrite Ht. apply bounded_answered, Hbound.
  - apply sum_list_insert_pred, Hn.
Qed.

(** Whatever the fuel, [Promise.all] is not rejected. *)
Lemma promiseAll_sound :
  forall (fuel : nat) (tasks : list (Prog (Outcome A))) (ns : list nat)
         (tr : Trace) (o : Outcome (list A)) (tr' : Trace),
    Forall2 (linked ok) ps tasks ->
    Forall2 bounded ns tasks ->
    promiseAll sched fuel tasks tr = Some (o, tr') ->
    exists results : list A,
      o = Fulfilled results
      /\ Forall2 (fun p a => linked ok p (Ret (Fulfilled a))) ps results.
Proof using sched_obeys fulfils.
  induction fuel as [| fuel IH]; intros tasks ns tr o tr' Hlinked Hwithin;
    destruct (settled tasks) as [o' |] eqn:Hsettled.
  - simpl. rewrite Hsettled. intros [= <- <-].
    exact (pool_settled tasks o' Hlinked Hsettled).
  - simpl. rewrite Hsettled. discriminate.
  - simpl. rewrite Hsettled. intros [= <- <-].
    exact (pool_settled tasks o' Hlinked Hsettled).
  - destruct (pool_step fuel tasks ns tr Hlinked Hwithin Hsettled)
      as (tasks' & ns' & tr1 & -> & Hlinked' & Hwithin' & _).
    apply (IH tasks' ns'); assumption.
Qed.

(** With fuel for the requests that remain to its tasks, the pool runs
    to the end. *)
Lemma promiseAll_total :
  forall (fuel : nat) (tasks : list (Prog (Outcome A))) (ns : list nat)
         (tr : Trace),
    Forall2 (linked ok) ps tasks ->
    Forall2 bounded ns tasks ->
    sum_list ns <= fuel ->
    is_Some (promiseAll sched fuel tasks tr).
Proof using sched_obeys.
  induction fuel as [| fuel IH]; intros tasks ns tr Hlinked Hwithin Hfuel;
    destruct (settled tasks) as [o |] eqn:Hsettled.
  - simpl. rewrite Hsettled. eexists; reflexivity.
  - destruct (pool_step 0 tasks ns tr Hlinked Hwithin Hsettled)
      as (_ & ns' & _ & _ & _ & _ & Hsum). lia.
  - simpl. rewrite Hsettled. eexists; reflexivity.
  - destruct (pool_step fuel tasks ns tr Hlinked Hwithin Hsettled)
      as (tasks' & ns' & tr1 & -> & Hlinked' & Hwithin' & Hsum).
    apply (IH tasks' ns'); [assumption | assumption | lia].
Qed.
End Pool.

Lemma obeys_anyAnswer (sched : Scheduler) : obeys anyAnswer sched.
Proof. intros tr waiting i url _. exact I. Qed.

(** ** The batch resolver *)

Lemma run_entryOf (net : Network) (ipAddress : string) (tr : Trace) :
  run net (entryOf ipAddress) tr
  = match run net (getCoordinatesFromIP ipAddress) tr with
    | (Fulfilled c, tr') => (Fulfilled {| ip := ipAddress; coords := c |}, tr')
    | (Rejected e, tr') => (Rejected e, tr')
    end.
Proof.
  unfold entryOf. rewrite run_asyncFunction. run_seq. rewrite run_await.
  destruct (run net (getCoordinatesFromIP ipAddress) tr) as [[c | e] tr'];
    reflexivity.
Qed.

(** The value of a task of the batch resolver, from the value of the
    resolver on the same network. *)
Lemma entryOf_value (net : Network) (ipAddress : string) (tr : Trace)
    (o : Outcome Entry) :
  (run net (entryOf ipAddress) tr).1 = o ->
  exists c : option Coords,
    o = Fulfilled {| ip := ipAddress; coords := c |}
    /\ (run net (getCoordinatesFromIP ipAddress) tr).1 = Fulfilled c.
Proof.
  rewrite run_entryOf.
  destruct (getCoordinatesFromIP_fulfilled net ipAddress tr) as [c Hc].
  destruct (run net (getCoordinatesFromIP ipAddress) tr) as [o' tr'].
  simpl in Hc. subst o'. simpl. intros <-. exists c. auto.
Qed.

(** The tasks of the batch resolver when [Promise.all] is called. *)
Lemma spawn_entries (ok : string -> Outcome Response -> Prop)
    (ipAddresses : list string) (tr : Trace) :
  let ps := entryOf <$> ipAddresses in
  let tasks := (spawn ps tr).1 in
  (forall p rs e, p ∈ ps -> answered p rs <> Ret (Rejected e))
  /\ Forall2 (linked ok) ps tasks
  /\ Forall2 bounded (replicate (length ipAddresses) 3) tasks.
Proof.
  intros ps tasks. subst ps tasks. rewrite spawn_answered. split; [| split].
  - intros p rs e Hp Hret.
    apply list_elem_of_fmap in Hp as (ipAddress & -> & _).
    apply answered_scripted, entryOf_value in Hret as (c & Hc & _).
    discriminate Hc.
  - apply Forall2_fmap_r, Forall_Forall2_diag, Forall_forall.
    intros p _. exists []. split; [reflexivity | apply answeredBy_nil].
  - apply Forall2_replicate_l; [rewrite !length_fmap; reflexivity |].
    apply Forall_fmap, Forall_fmap, Forall_forall.
    intros ipAddress _. apply bounded_answered, bounded_entryOf.
Qed.

(** The batch resolver under a scheduler that obeys [ok]: with fuel for
    three requests for each address, it is fulfilled with the values of
    its tasks, in order. *)
Lemma run_getCoordinatesFromIPs (sched : Scheduler) (fuel : nat)
    (ipAddresses : list string) (tr : Trace) :
  3 * length ipAddresses <= fuel ->
  exists (results : list Entry) (tr' : Trace),
    getCoordinatesFromIPs sched fuel ipAddresses tr
    = Some (Fulfilled results, tr')
    /\ forall ok : string -> Outcome Response -> Prop,
         obeys ok sched ->
         Forall2 (fun p a => linked ok p (Ret (Fulfilled a)))
           (entryOf <$> ipAddresses) results.
Proof.
  intros Hfuel. unfold getCoordinatesFromIPs.
  change (map entryOf ipAddresses) with (entryOf <$> ipAddresses).
  destruct (spawn_entries anyAnswer ipAddresses tr)
    as (Hfulfils & Hlinked & Hwithin).
  pose proof (fun ok => spawn_entries ok ipAddresses tr) as Hspawn.
  revert Hlinked Hwithin Hspawn. cbv zeta.
  destruct (spawn (entryOf <$> ipAddresses) tr) as [tasks tr0].
  simpl. intros Hlinked Hwithin Hspawn.
  destruct (promiseAll_total sched anyAnswer (obeys_anyAnswer sched)
              (entryOf <$> ipAddresses) fuel tasks
              (replicate (length ipAddresses) 3) tr0 Hlinked Hwithin)
    as [[o tr'] Hrun].
  { rewrite sum_list_replicate. lia. }
  destruct (promiseAll_sound sched anyAnswer (obeys_anyAnswer sched)
              (entryOf <$> ipAddresses) Hfulfils fuel tasks _ tr0 o tr'
              Hlinked Hwithin Hrun) as (results & -> & _).
  exists results, tr'. rewrite Hrun. split; [reflexivity |].
  intros ok Hobeys. destruct (Hspawn ok) as (_ & Hlinked' & _).
  destruct (promiseAll_sound sched ok Hobeys (entryOf <$> ipAddresses)
              Hfulfils fuel tasks _ tr0 _ tr' Hlinked' Hwithin Hrun)
    as (results' & [= <-] & Hresults).
  exact Hresults.
Qed.

(** ** The answers given in a run *)

(** The run that keeps the answers is the run. *)
Lemma promiseAllLog_promiseAll {A : Type} (sched : Scheduler) :
  forall (fuel : nat) (tasks : list (Prog (Outcome A))) (tr : Trace),
    promiseAll sched fuel tasks tr
    = (fun x => (x.1.1, x.1.2)) <$> promiseAllLog sched fuel tasks tr.
Proof.
  induction fuel as [| fuel IH]; intros tasks tr; simpl;
    destruct (settled tasks) as [o |]; try reflexivity.
  destruct (sched tr (pending 0 tasks)) as [choice r].
  destruct (pending 0 tasks !! (choice mod length (pending 0 tasks)))
    as [[i url] |]; [| reflexivity].
  destruct (tasks !! i) as [[a | url' k | level message k] |];
    try reflexivity.
  destruct (advance (k r) tr) as [t tr1]. rewrite IH.
  destruct (promiseAllLog sched fuel (<[i := t]> tasks) tr1)
    as [[[o tr2] log] |]; reflexivity.
Qed.

Lemma getCoordinatesFromIPsLog_run (sched : Scheduler) (fuel : nat)
    (ipAddresses : list string) (tr : Trace) :
  getCoordinatesFromIPs sched fuel ipAddresses tr
  = (fun x => (x.1.1, x.1.2))
    <$> getCoordinatesFromIPsLog sched fuel ipAddresses tr.
Proof.
  unfold getCoordinatesFromIPs, getCoordinatesFromIPsLog.
  destruct (spawn (map entryOf ipAddresses) tr) as [tasks tr0].
  rewrite promiseAllLog_promiseAll.
  destruct (promiseAllLog sched fuel tasks tr0) as [[[[results | e] tr'] log] |];
    reflexivity.
Qed.

Lemma asked_nil {A : Type} (p : Prog A) : asked p [] = [].
Proof.
  induction p as [a | url k IH | level message k IH]; simpl;
    [reflexivity | reflexivity | exact IH].
Qed.

Lemma asked_app {A : Type} (p : Prog A) :
  forall rs rs' : list (Outcome Response),
    asked p (rs ++ rs') = asked p rs ++ asked (answered p rs) rs'.
Proof.
  induction p as [a | url k IH | level message k IH]; intros rs rs'; simpl.
  - reflexivity.
  - destruct rs as [| r rs]; simpl; [reflexivity |].
    rewrite IH. reflexivity.
  - apply IH.
Qed.

(** Run alone against the answers that a finished task received, the
    program makes the requests that these answers answered. *)
Lemma asked_run {A : Type} (p : Prog A) :
  forall (rs : list (Outcome Response)) (net : Network) (tr : Trace) (a : A),
    (forall (j : nat) (r : Outcome Response) (history : list string)
            (url : string),
       rs !! j = Some r -> length history = length (requests tr) + j ->
       net history url = r) ->
    answered p rs = Ret a ->
    requests (run net p tr).2 = requests tr ++ asked p rs.
Proof.
  induction p as [a' | url k IH | level message k IH];
    intros rs net tr a Hnet; simpl.
  - intros _. symmetry. apply app_nil_r.
  - destruct rs as [| r rs]; [discriminate |].
    intros Hret.
    rewrite (Hnet 0 r (requests tr) url); [| reflexivity | lia].
    rewrite (IH r rs net _ a); [| | exact Hret].
    + rewrite requests_app, <- app_assoc. reflexivity.
    + intros j r' history url' Hj Hlen.
      apply (Hnet (S j)); [exact Hj |].
      rewrite requests_app, length_app in Hlen. simpl in Hlen. lia.
  - intros Hret. rewrite (IH rs net _ a); [| | exact Hret].
    + rewrite requests_app, app_nil_r. reflexivity.
    + intros j r' history url' Hj Hlen.
      apply (Hnet j); [exact Hj |].
      rewrite requests_app, length_app in Hlen. simpl in Hlen. lia.
Qed.

Lemma asked_scripted {A : Type} (p : Prog A)
    (rs : list (Outcome Response)) (a : A) :
  answered p rs = Ret a ->
  requests (run (scripted rs) p []).2 = asked p rs.
Proof.
  intros Hret. apply (asked_run p rs (scripted rs) [] a); [| exact Hret].
  intros j r history url Hj Hlen. unfold scripted.
  simpl in Hlen. rewrite Hlen, Hj. reflexivity.
Qed.

Lemma answersTo_cons (i j : nat) (url : string) (r : Outcome Response)
    (log : list Delivery) :
  answersTo i ((j, url, r) :: log)
  = (if Nat.eqb j i then [r] else []) ++ answersTo i log.
Proof. unfold answersTo. csimpl. destruct (Nat.eqb j i); reflexivity. Qed.

Lemma urlsTo_cons (i j : nat) (url : string) (r : Outcome Response)
    (log : list Delivery) :
  urlsTo i ((j, url, r) :: log)
  = (if Nat.eqb j i then [url] else []) ++ urlsTo i log.
Proof. unfold urlsTo. csimpl. destruct (Nat.eqb j i); reflexivity. Qed.

Lemma zip_with_answered_nil {A : Type} (ps : list (Prog A)) :
  zip_with answered ps (replicate (length ps) [])
  = (fun p => answered p []) <$> ps.
Proof.
  induction ps as [| p ps IH]; [reflexivity |].
  csimpl. rewrite IH. reflexivity.
Qed.

(** Each value of the fulfilled pool is the value of its program after
    the answers that the scheduler gave to its task, which answered the
    requests with the URLs kept beside them. *)
Lemma promiseAllLog_scripts {A : Type} (sched : Scheduler)
    (ps : list (Prog (Outcome A))) :
  forall (fuel : nat) (rss : list (list (Outcome Response))) (tr : Trace)
         (results : list A) (tr' : Trace) (log : list Delivery),
    length rss = length ps ->
    promiseAllLog sched fuel (zip_with answered ps rss) tr
      = Some (Fulfilled results, tr', log) ->
    forall (i : nat) (p : Prog (Outcome A)) (rs : list (Outcome Response))
           (a : A),
      ps !! i = Some p -> rss !! i = Some rs -> results !! i = Some a ->
      answered p (rs ++ answersTo i log) = Ret (Fulfilled a)
      /\ asked p (rs ++ answersTo i log) = asked p rs ++ urlsTo i log.
Proof.
  induction fuel as [| fuel IH]; intros rss tr results tr' log Hlen;
    simpl; destruct (settled (zip_with answered ps rss)) as [o |] eqn:Hs;
    try discriminate.
  1, 2: intros [= -> <- <-] i p rs a Hp Hrs Ha;
    apply settled_fulfilled in Hs;
    assert (Ht : zip_with answered ps rss !! i = Some (answered p rs))
      by (apply lookup_zip_with_Some; eauto);
    pose proof (Forall2_lookup_lr _ _ _ _ _ _ Hs Ht Ha) as Hv;
    unfold answersTo, urlsTo; csimpl; rewrite !app_nil_r; auto.
  destruct (sched tr (pending 0 (zip_with answered ps rss))) as [choice r].
  destruct (pending 0 (zip_with answered ps rss)
              !! (choice mod length (pending 0 (zip_with answered ps rss))))
    as [[i0 url] |] eqn:Hchoice; [| discriminate].
  destruct (pending_lookup _ 0 _ i0 url Hchoice) as [_ [k Hk]].
  rewrite Nat.sub_0_r in Hk. rewrite Hk.
  apply lookup_zip_with_Some in Hk as (p0 & rs0 & Hfetch & Hp0 & Hrs0).
  pose proof (advance_answered (k r) tr) as Ht.
  destruct (advance (k r) tr) as [t tr1]. simpl in Ht.
  assert (Htasks : <[i0 := t]> (zip_with answered ps rss)
                   = zip_with answered ps (<[i0 := rs0 ++ [r]]> rss)).
  { rewrite <- (list_insert_id ps i0 p0 Hp0) at 2.
    rewrite <- insert_zip_with. f_equal.
    rewrite answered_app, <- Hfetch. exact Ht. }
  rewrite Htasks.
  destruct (promiseAllLog sched fuel _ tr1) as [[[o tr2] log'] |] eqn:Hrec;
    [| discriminate].
  intros [= -> <- <-] i p rs a Hp Hrs Ha.
  rewrite answersTo_cons, urlsTo_cons.
  destruct (Nat.eqb_spec i0 i) as [<- | Hne].
  - assert (p = p0) as -> by congruence.
    assert (rs = rs0) as -> by congruence.
    destruct (IH _ tr1 results tr2 log' ltac:(rewrite length_insert; exact Hlen)
                Hrec i0 p0 (rs0 ++ [r]) a Hp) as [Hvalue Hasked].
    { apply list_lookup_insert_eq. apply lookup_lt_Some in Hrs0. exact Hrs0. }
    { exact Ha. }
    rewrite app_assoc. split; [exact Hvalue |].
    rewrite Hasked, asked_app, <- Hfetch. simpl. rewrite asked_nil.
    rewrite <- app_assoc. reflexivity.
  - simpl.
    apply (IH _ tr1 results tr2 log' ltac:(rewrite length_insert; exact Hlen)
             Hrec i p rs a Hp); [| exact Ha].
    rewrite list_lookup_insert_ne by exact Hne. exact Hrs.
Qed.

Lemma pendingUrls_cons {A : Type} (t : Prog A) (ts : list (Prog A)) :
  pendingUrls (t :: ts) = pendingUrls [t] ++ pendingUrls ts.
Proof. destruct t; reflexivity. Qed.

Lemma advance_pendingUrls {A : Type} (p : Prog A) :
  forall tr : Trace, exists more : Trace,
    (advance p tr).2 = tr ++ more
    /\ requests more = pendingUrls [(advance p tr).1].
Proof.
  induction p as [a | url k IH | level message k IH]; intros tr; simpl.
  - exists []. rewrite app_nil_r. auto.
  - exists [EvFetch url]. auto.
  - destruct (IH (tr ++ [EvConsole level message])) as (more & -> & Hmore).
    exists (EvConsole level message :: more).
    rewrite <- app_assoc. auto.
Qed.

Lemma spawn_pendingUrls {A : Type} (ps : list (Prog A)) :
  forall tr : Trace, exists more : Trace,
    (spawn ps tr).2 = tr ++ more
    /\ requests more = pendingUrls (spawn ps tr).1.
Proof.
  induction ps as [| p ps IH]; intros tr; simpl.
  - exists []. rewrite app_nil_r. auto.
  - destruct (advance_pendingUrls p tr) as (more & Htr & Hmore).
    destruct (advance p tr) as [t tr1]. simpl in Htr, Hmore. subst tr1.
    destruct (IH (tr ++ more)) as (more' & Htr' & Hmore').
    destruct (spawn ps (tr ++ more)) as [ts tr2].
    simpl in Htr', Hmore'. subst tr2. cbn [fst snd].
    exists (more ++ more').
    rewrite app_assoc, requests_app, Hmore, Hmore', (pendingUrls_cons t ts).
    auto.
Qed.

Lemma pendingUrls_insert {A : Type} (tasks : list (Prog A)) :
  forall (i : nat) (url : string) (k : Outcome Response -> Prog A)
         (t : Prog A),
    tasks !! i = Some (Fetch url k) ->
    url :: pendingUrls (<[i := t]> tasks)
    ≡ₚ pendingUrls [t] ++ pendingUrls tasks.
Proof.
  induction tasks as [| t0 tasks IH]; intros i url k t; [discriminate |].
  destruct i as [| i].
  - intros [= ->].
    change (<[0 := t]> (Fetch url k :: tasks)) with (t :: tasks).
    rewrite (pendingUrls_cons t tasks).
    change (pendingUrls (Fetch url k :: tasks)) with (url :: pendingUrls tasks).
    apply Permutation_middle.
  - intros Hi. specialize (IH i url k t Hi).
    change (<[S i := t]> (t0 :: tasks)) with (t0 :: <[i := t]> tasks).
    rewrite (pendingUrls_cons t0 (<[i := t]> tasks)),
            (pendingUrls_cons t0 tasks).
    rewrite Permutation_middle, IH.
    rewrite !app_assoc. apply Permutation_app_tail, Permutation_app_comm.
Qed.

Lemma pendingUrls_fulfilled {A : Type} (tasks : list (Prog (Outcome A)))
    (results : list A) :
  settled tasks = Some (Fulfilled results) -> pendingUrls tasks = [].
Proof.
  intros Hs. apply settled_fulfilled in Hs.
  induction Hs as [| t a tasks results -> _ IH]; [reflexivity | exact IH].
Qed.

(** The requests of a fulfilled pool, the outstanding ones of its start
    counted, are those that the scheduler answered. *)
Lemma promiseAllLog_requests {A : Type} (sched : Scheduler) :
  forall (fuel : nat) (tasks : list (Prog (Outcome A))) (tr : Trace)
         (results : list A) (tr' : Trace) (log : list Delivery),
    promiseAllLog sched fuel tasks tr = Some (Fulfilled results, tr', log) ->
    requests tr' ++ pendingUrls tasks
    ≡ₚ requests tr ++ ((fun d : Delivery => d.1.2) <$> log).
Proof.
  induction fuel as [| fuel IH]; intros tasks tr results tr' log; simpl;
    destruct (settled tasks) as [o |] eqn:Hs; try discriminate.
  1, 2: intros [= -> <- <-];
    rewrite (pendingUrls_fulfilled tasks results Hs); reflexivity.
  destruct (sched tr (pending 0 tasks)) as [choice r].
  destruct (pending 0 tasks !! (choice mod length (pending 0 tasks)))
    as [[i url] |] eqn:Hchoice; [| discriminate].
  destruct (pending_lookup _ 0 _ i url Hchoice) as [_ [k Hk]].
  rewrite Nat.sub_0_r in Hk. rewrite Hk.
  destruct (advance_pendingUrls (k r) tr) as (more & Htr & Hmore).
  destruct (advance (k r) tr) as [t tr1]. cbn [fst snd] in Htr, Hmore.
  subst tr1.
  destruct (promiseAllLog sched fuel _ (tr ++ more))
    as [[[o tr2] log'] |] eqn:Hrec; [| discriminate].
  intros [= -> <- <-].
  apply IH in Hrec. rewrite requests_app, Hmore in Hrec.
  pose proof (pendingUrls_insert tasks i url k t Hk) as Hins.
  csimpl.
  apply (Permutation_app_inv_l (pendingUrls [t])).
  rewrite (Permutation_app_swap_app (pendingUrls [t]) (requests tr2)), <- Hins.
  rewrite <- Permutation_middle, Hrec.
  rewrite (Permutation_app_swap_app (pendingUrls [t]) (requests tr)).
  rewrite <- !app_assoc. rewrite <- Permutation_middle.
  apply Permutation_middle.
Qed.

(** Every answer kept is one that the scheduler gave in the run. *)
Lemma promiseAllLog_given {A : Type} (sched : Scheduler) :
  forall (fuel : nat) (tasks : list (Prog (Outcome A))) (tr : Trace)
         (o : Outcome (list A)) (tr' : Trace) (log : list Delivery),
    promiseAllLog sched fuel tasks tr = Some (o, tr', log) ->
    tr `prefix_of` tr' /\ Forall (givenBy sched tr tr') log.
Proof.
  induction fuel as [| fuel IH]; intros tasks tr o tr' log; simpl;
    destruct (settled tasks) as [o' |] eqn:Hs; try discriminate.
  1, 2: intros [= _ <- <-]; split; [reflexivity | constructor].
  destruct (sched tr (pending 0 tasks)) as [choice r] eqn:Hsched.
  destruct (pending 0 tasks !! (choice mod length (pending 0 tasks)))
    as [[i url] |] eqn:Hchoice; [| discriminate].
  destruct (tasks !! i) as [[a | url' k | level message k] |];
    try discriminate.
  destruct (advance_pendingUrls (k r) tr) as (more & Htr & _).
  destruct (advance (k r) tr) as [t tr1]. simpl in Htr. subst tr1.
  destruct (promiseAllLog sched fuel _ (tr ++ more))
    as [[[o1 tr2] log'] |] eqn:Hrec; [| discriminate].
  intros [= <- <- <-].
  apply IH in Hrec as [Hprefix Hgiven].
  assert (Htr : tr `prefix_of` tr2).
  { etransitivity; [apply prefix_app_r; reflexivity | exact Hprefix]. }
  split; [exact Htr |]. constructor.
  - exists tr, (pending 0 tasks). rewrite Hsched. simpl. auto.
  - apply (Forall_impl _ _ _ Hgiven).
    intros d (tr1 & waiting & Hfrom & Hto & Hd).
    exists tr1, waiting. split; [| auto].
    etransitivity; [apply prefix_app_r; reflexivity | exact Hfrom].
Qed.

Lemma run_entryOf_trace (net : Network) (ipAddress : string) (tr : Trace) :
  (run net (entryOf ipAddress) tr).2
  = (run net (getCoordinatesFromIP ipAddress) tr).2.
Proof.
  rewrite run_entryOf.
  destruct (run net (getCoordinatesFromIP ipAddress) tr) as [[c | e] tr'];
    reflexivity.
Qed.

(** The batch resolver and the answers of its run: each entry is the value
    of its task after the answers given to that task, the requests of the
    run are the requests answered, and the answers are the scheduler's. *)
Lemma getCoordinatesFromIPsLog_answers (sched : Scheduler) (fuel : nat)
    (ipAddresses : list string) (tr : Trace) (results : list Entry)
    (tr' : Trace) (log : list Delivery) :
  getCoordinatesFromIPsLog sched fuel ipAddresses tr
    = Some (Fulfilled results, tr', log) ->
  (forall (i : nat) (ipAddress : string) (entry : Entry),
     ipAddresses !! i = Some ipAddress -> results !! i = Some entry ->
     answered (entryOf ipAddress) (answersTo i log) = Ret (Fulfilled entry)
     /\ asked (entryOf ipAddress) (answersTo i log) = urlsTo i log)
  /\ requests tr' ≡ₚ requests tr ++ ((fun d : Delivery => d.1.2) <$> log)
  /\ Forall (givenBy sched tr tr') log.
Proof.
  unfold getCoordinatesFromIPsLog.
  change (map entryOf ipAddresses) with (entryOf <$> ipAddresses).
  pose proof (spawn_answered (entryOf <$> ipAddresses) tr) as Htasks.
  destruct (spawn_pendingUrls (entryOf <$> ipAddresses) tr)
    as (more & Htr & Hmore).
  destruct (spawn (entryOf <$> ipAddresses) tr) as [tasks tr0].
  cbn [fst snd] in Htasks, Htr, Hmore. subst tr0.
  destruct (promiseAllLog sched fuel tasks (tr ++ more))
    as [[[[results' | e] tr1] log1] |] eqn:Hrun; try discriminate.
  intros [= -> -> ->]. split; [| split].
  - intros i ipAddress entry Hip Hentry.
    rewrite Htasks, <- zip_with_answered_nil in Hrun.
    destruct (promiseAllLog_scripts sched (entryOf <$> ipAddresses) fuel
                _ _ _ _ _ ltac:(apply length_replicate) Hrun
                i (entryOf ipAddress) [] entry) as [Hvalue Hasked].
    + rewrite list_lookup_fmap, Hip. reflexivity.
    + apply lookup_replicate. split; [reflexivity |].
      rewrite length_fmap. apply lookup_lt_Some in Hip. exact Hip.
    + exact Hentry.
    + rewrite asked_nil in Hasked. auto.
  - apply promiseAllLog_requests in Hrun.
    rewrite requests_app, Hmore in Hrun.
    apply (Permutation_app_inv_r (pendingUrls tasks)).
    rewrite Hrun, <- !app_assoc.
    apply Permutation_app_head, Permutation_app_comm.
  - apply promiseAllLog_given in Hrun as [_ Hgiven].
    apply (Forall_impl _ _ _ Hgiven).
    intros d (tr2 & waiting & Hfrom & Hto & Hd).
    exists tr2, waiting. split; [| auto].
    etransitivity; [apply prefix_app_r; reflexivity | exact Hfrom].
Qed.

(** C3. For every list of addresses and every order in which the
    scheduler lets the requests settle, the batch resolver returns a list
    of the length of the input whose i-th entry pairs the i-th address
    with what the resolution of that address returned in this run, [null]
    when it failed: no entry is left out and the order is that of the
    input.  What the i-th entry holds is what the resolver returns for
    the i-th address when its requests, which are those that the
    scheduler answered for the i-th task, settle as the scheduler let
    them settle in the run; the answers kept are those that the scheduler
    gave, to the requests that the trace of the run shows.  When the
    answers depend on the URL of the request alone, what the entry holds
    is what the resolver returns for the address against these
    answers. *)
Theorem batch_keeps_length_and_order (sched : Scheduler) (fuel : nat)
    (ipAddresses : list string) (tr : Trace) :
  3 * length ipAddresses <= fuel ->
  exists (results : list Entry) (tr' : Trace) (log : list Delivery),
    getCoordinatesFromIPs sched fuel ipAddresses tr
    = Some (Fulfilled results, tr')
    /\ getCoordinatesFromIPsLog sched fuel ipAddresses tr
       = Some (Fulfilled results, tr', log)
    /\ length results = length ipAddresses
    /\ ip <$> results = ipAddresses
    /\ (forall (i : nat) (ipAddress : string) (entry : Entry),
          ipAddresses !! i = Some ipAddress -> results !! i = Some entry ->
          ip entry = ipAddress
          /\ (run (scripted (answersTo i log))
                (getCoordinatesFromIP ipAddress) []).1
             = Fulfilled (coords entry)
          /\ requests (run (scripted (answersTo i log))
                         (getCoordinatesFromIP ipAddress) []).2
             = urlsTo i log)
    /\ requests tr' ≡ₚ requests tr ++ ((fun d : Delivery => d.1.2) <$> log)
    /\ Forall (givenBy sched tr tr') log
    /\ forall respond : string -> Outcome Response,
         obeys (answersFrom respond) sched ->
         Forall2 (fun ipAddress entry =>
                    (run (stateless respond)
                       (getCoordinatesFromIP ipAddress) []).1
                    = Fulfilled (coords entry))
           ipAddresses results.
Proof.
  intros Hfuel.
  destruct (run_getCoordinatesFromIPs sched fuel ipAddresses tr Hfuel)
    as (results & tr' & Hrun & Hresults).
  pose proof (getCoordinatesFromIPsLog_run sched fuel ipAddresses tr) as Hlog.
  rewrite Hrun in Hlog.
  destruct (getCoordinatesFromIPsLog sched fuel ipAddresses tr)
    as [[[o tr1] log] |] eqn:Hkept; [| discriminate].
  simpl in Hlog. injection Hlog as <- <-.
  destruct (getCoordinatesFromIPsLog_answers sched fuel ipAddresses tr
              results tr' log Hkept) as (Hentries & Hrequests & Hgiven).
  exists results, tr', log. split; [exact Hrun |]. split; [reflexivity |].
  assert (Hany : Forall2 (fun ipAddress entry => ip entry = ipAddress)
                   ipAddresses results).
  { specialize (Hresults anyAnswer (obeys_anyAnswer sched)).
    apply Forall2_fmap_l in Hresults.
    apply (Forall2_impl _ _ _ _ Hresults).
    intros ipAddress entry (rs & Hrs & _). simpl in Hrs. symmetry in Hrs.
    apply answered_scripted, entryOf_value in Hrs as (c & [= ->] & Hc).
    reflexivity. }
  split; [symmetry; apply (Forall2_length _ _ _ Hany) |].
  split; [| split; [| split; [exact Hrequests | split; [exact Hgiven |]]]].
  - clear -Hany. induction Hany as [| ipAddress entry ips es Hip _ IH];
      [reflexivity |].
    csimpl. rewrite Hip, IH. reflexivity.
  - intros i ipAddress entry Hip Hentry.
    destruct (Hentries i ipAddress entry Hip Hentry) as [Hvalue Hasked].
    pose proof (asked_scripted _ _ _ Hvalue) as Hurls.
    rewrite run_entryOf_trace, Hasked in Hurls.
    apply answered_scripted, entryOf_value in Hvalue as (c & [= ->] & Hc).
    auto.
  - intros respond Hobeys. specialize (Hresults _ Hobeys).
    apply Forall2_fmap_l in Hresults.
    apply (Forall2_impl _ _ _ _ Hresults).
    intros ipAddress entry (rs & Hrs & Hby). simpl in Hrs, Hby.
    symmetry in Hrs.
    apply (answered_stateless respond _ rs []) in Hrs; [| exact Hby].
    apply entryOf_value in Hrs as (c & [= ->] & Hc). exact Hc.
Qed.

(** ** No error reaches the caller *)



(** ** Sample runs *)

Example test_google : RegExp_test ipRegex "8.8.8.8" = true.
Proof. reflexivity. Qed.
Example test_999 : RegExp_test ipRegex "999.999.999.999" = true.
Proof. reflexivity. Qed.
Example test_bad : RegExp_test ipRegex "bad" = false.
Proof. reflexivity. Qed.
Example test_four_digits : RegExp_test ipRegex "1234.1.1.1" = false.
Proof. reflexivity. Qed.
Example test_three_groups : RegExp_test ipRegex "1.1.1" = false.
Proof. reflexivity. Qed.
Example test_trailing : RegExp_test ipRegex "1.1.1.1 " = false.
Proof. reflexivity. Qed.
Example test_leading : RegExp_test ipRegex " 1.1.1.1" = false.
Proof. reflexivity. Qed.

Example lookup_sample :
  sampleAnswer1 !! "lon" = Some (JNumber (Finite false 5 0)).
Proof. reflexivity. Qed.

(** The flow builder on the pairs of the specification: the pair with the
    malformed source is left out, after its destination was resolved. *)
Example flows_sample :
  run sampleNet
    (createFlowsFromIPs [{| srcIP := "8.8.8.8"; dstIP := "1.1.1.1" |};
                         {| srcIP := "bad"; dstIP := "8.8.8.8" |}]) []
  = (Fulfilled
       [{| src := Some (JNumber (Finite false 5 0), JNumber (Finite false 7 0));
           dst := Some (JNumber (Finite true 9 0),
                        JNumber (Finite false 3 0)) |}],
     [EvFetch (url1 "8.8.8.8");
      EvConsole LogInfo
        (GotCoords IpApiCom
           (JNumber (Finite false 5 0), JNumber (Finite false 7 0)));
      EvFetch (url1 "1.1.1.1");
      EvConsole LogWarn (RequestFailed IpApiCom (TypeError "Failed to fetch"));
      EvFetch (url2 "1.1.1.1");
      EvConsole LogInfo
        (GotCoords IpapiCo
           (JNumber (Finite true 9 0), JNumber (Finite false 3 0)));
      EvConsole LogError (InvalidFormat "bad");
      EvFetch (url1 "8.8.8.8");
      EvConsole LogInfo
        (GotCoords IpApiCom
           (JNumber (Finite false 5 0), JNumber (Finite false 7 0)))]).
Proof. vm_compute. reflexivity. Qed.

Example batch_sample :
  (getCoordinatesFromIPs sampleSched 9 ["8.8.8.8"; "bad"; "1.1.1.1"] [])
    ≫= (fun x => Some x.1)
  = Some (Fulfilled
      [{| ip := "8.8.8.8";
          coords := Some (JNumber (Finite false 5 0),
                          JNumber (Finite false 7 0)) |};
       {| ip := "bad"; coords := None |};
       {| ip := "1.1.1.1";
          coords := Some (JNumber (Finite true 9 0),
                          JNumber (Finite false 3 0)) |}]).
Proof. vm_compute. reflexivity. Qed.

(** The answers arrive in another order, the entries keep the order of
    the input. *)
Example batch_newest_first :
  (getCoordinatesFromIPs newestFirstSched 9 ["8.8.8.8"; "bad"; "1.1.1.1"] [])
    ≫= (fun x => Some x.1)
  = Some (Fulfilled
      [{| ip := "8.8.8.8";
          coords := Some (JNumber (Finite false 5 0),
                          JNumber (Finite false 7 0)) |};
       {| ip := "bad"; coords := None |};
       {| ip := "1.1.1.1";
          coords := Some (JNumber (Finite true 9 0),
                          JNumber (Finite false 3 0)) |}])
  /\ requests
       (default [] ((getCoordinatesFromIPs newestFirstSched 9
                       ["8.8.8.8"; "bad"; "1.1.1.1"] [])
                    ≫= (fun x => Some x.2)))
     = [url1 "8.8.8.8"; url1 "1.1.1.1"; url2 "1.1.1.1"].
Proof. vm_compute. split; reflexivity. Qed.

(** ** The properties at the sample inputs *)

Lemma provider1_success_short_circuits_witness :
  run sampleNet (getCoordinatesFromIP "8.8.8.8") []
  = (Fulfilled (Some (JNumber (Finite false 5 0), JNumber (Finite false 7 0))),
     [] ++ [EvFetch (url1 "8.8.8.8");
            EvConsole LogInfo
              (GotCoords IpApiCom
                 (JNumber (Finite false 5 0), JNumber (Finite false 7 0)))])
  /\ requests (run sampleNet (getCoordinatesFromIP "8.8.8.8") []).2
     = requests [] ++ [url1 "8.8.8.8"]
  /\ forall url ipAddress' : string,
       url ∈ [url1 "8.8.8.8"] ->
       url <> url2 ipAddress' /\ url <> url3 ipAddress'.
Proof.
  apply (provider1_success_short_circuits sampleNet "8.8.8.8" []
           sampleAnswer1); reflexivity.
Defined.

Lemma malformed_returns_null_without_request_witness :
  run sampleNet (getCoordinatesFromIP "bad") []
  = (Fulfilled None, [] ++ [EvConsole LogError (InvalidFormat "bad")])
  /\ requests (run sampleNet (getCoordinatesFromIP "bad") []).2 = requests [].
Proof.
  apply (malformed_returns_null_without_request sampleNet "bad" []).
  reflexivity.
Defined.

Lemma sampleSched_obeys : obeys (answersFrom (sampleNet [])) sampleSched.
Proof.
  intros tr waiting i url. destruct waiting as [| [j u] waiting]; simpl.
  - discriminate.
  - rewrite Nat.sub_diag. simpl. intros [= _ ->]. reflexivity.
Defined.

Lemma batch_keeps_length_and_order_witness :
  exists (results : list Entry) (tr' : Trace) (log : list Delivery),
    getCoordinatesFromIPs sampleSched 9 ["8.8.8.8"; "bad"; "1.1.1.1"] []
    = Some (Fulfilled results, tr')
    /\ getCoordinatesFromIPsLog sampleSched 9
         ["8.8.8.8"; "bad"; "1.1.1.1"] []
       = Some (Fulfilled results, tr', log)
    /\ length results = 3
    /\ ip <$> results = ["8.8.8.8"; "bad"; "1.1.1.1"]
    /\ (forall (i : nat) (ipAddress : string) (entry : Entry),
          ["8.8.8.8"; "bad"; "1.1.1.1"] !! i = Some ipAddress ->
          results !! i = Some entry ->
          ip entry = ipAddress
          /\ (run (scripted (answersTo i log))
                (getCoordinatesFromIP ipAddress) []).1
             = Fulfilled (coords entry)
          /\ requests (run (scripted (answersTo i log))
                         (getCoordinatesFromIP ipAddress) []).2
             = urlsTo i log)
    /\ requests tr' ≡ₚ requests [] ++ ((fun d : Delivery => d.1.2) <$> log)
    /\ Forall (givenBy sampleSched [] tr') log
    /\ Forall2 (fun ipAddress entry =>
                  (run (stateless (sampleNet []))
                     (getCoordinatesFromIP ipAddress) []).1
                  = Fulfilled (coords entry))
         ["8.8.8.8"; "bad"; "1.1.1.1"] results.
Proof.
  destruct (batch_keeps_length_and_order sampleSched 9
              ["8.8.8.8"; "bad"; "1.1.1.1"] [])
    as (results & tr' & log & Hrun & Hkept & Hlen & Hips & Hentries
        & Hrequests & Hgiven & Hstateless).
  - simpl. lia.
  - exists results, tr', log.
    split; [exact Hrun |]. split; [exact Hkept |]. split; [exact Hlen |].
    split; [exact Hips |]. split; [exact Hentries |].
    split; [exact Hrequests |]. split; [exact Hgiven |].
    apply Hstateless, sampleSched_obeys.
Defined.

(** When the provider answers the first request of the run and lets every
    later one fail, the batch resolver gives the first address its
    coordinates and leaves the second without: each entry follows the
    answers that its own requests received. *)
Example batch_on_a_rate_limited_network :
  exists (tr' : Trace) (log : list Delivery),
    getCoordinatesFromIPs rateLimitedSched 6 ["8.8.8.8"; "9.9.9.9"] []
    = Some (Fulfilled
              [{| ip := "8.8.8.8";
                  coords := Some (JNumber (Finite false 5 0),
                                  JNumber (Finite false 7 0)) |};
               {| ip := "9.9.9.9"; coords := None |}], tr')
    /\ getCoordinatesFromIPsLog rateLimitedSched 6 ["8.8.8.8"; "9.9.9.9"] []
       = Some (Fulfilled
                 [{| ip := "8.8.8.8";
                     coords := Some (JNumber (Finite false 5 0),
                                     JNumber (Finite false 7 0)) |};
                  {| ip := "9.9.9.9"; coords := None |}], tr', log)
    /\ answersTo 0 log = [okJson (JObject sampleAnswer1)]
    /\ urlsTo 0 log = [url1 "8.8.8.8"]
    /\ answersTo 1 log = replicate 3 (Rejected (TypeError "Failed to fetch"))
    /\ urlsTo 1 log = [url1 "9.9.9.9"; url2 "9.9.9.9"; url3 "9.9.9.9"]
    /\ requests tr' = [url1 "8.8.8.8"; url1 "9.9.9.9"; url2 "9.9.9.9";
                       url3 "9.9.9.9"].
Proof. eexists _, _. vm_compute. repeat split. Qed.

Lemma zero_coordinate_falls_through_witness :
  exists more : list string,
    requests (run sampleNet (getCoordinatesFromIP "0.0.0.0") []).2
    = requests [] ++ url1 "0.0.0.0" :: url2 "0.0.0.0" :: more.
Proof.
  apply (proj1 (zero_coordinate_falls_through sampleNet "0.0.0.0" []
                  eq_refl) zeroAnswer1).
  - reflexivity.
  - exists false. left. reflexivity.
Defined.

Lemma all_providers_fail_returns_null_witness :
  (run sampleNet (getCoordinatesFromIP "2.2.2.2") []).1 = Fulfilled None
  /\ requests (run sampleNet (getCoordinatesFromIP "2.2.2.2") []).2
     = requests [] ++ [url1 "2.2.2.2"; url2 "2.2.2.2"; url3 "2.2.2.2"]
  /\ length (requests (run sampleNet (getCoordinatesFromIP "2.2.2.2") []).2)
     = length (requests []) + 3.
Proof.
  apply (all_providers_fail_returns_null sampleNet "2.2.2.2" []);
    [reflexivity | exact I | exact I | exact I].
Defined.

Lemma provider2_succeeds_after_provider1_fails_witness :
  (run sampleNet (getCoordinatesFromIP "1.1.1.1") []).1
  = Fulfilled (Some (JNumber (Finite true 9 0), JNumber (Finite false 3 0)))
  /\ requests (run sampleNet (getCoordinatesFromIP "1.1.1.1") []).2
     = requests [] ++ [url1 "1.1.1.1"; url2 "1.1.1.1"]
  /\ forall (net' : Network) (tr' : Trace),
       exists c : option Coords,
         (run net' (getCoordinatesFromIP "1.1.1.1") tr').1 = Fulfilled c.
Proof.
  apply (provider2_succeeds_after_provider1_fails sampleNet "1.1.1.1" []
           sampleAnswer2); (exact I || reflexivity).
Defined.


Lemma dotted_quad_reaches_provider1_witness :
  RegExp_test ipRegex "999.999.999.999" = true
  /\ exists rest : Trace,
       (run sampleNet (getCoordinatesFromIP "999.999.999.999") []).2
       = [] ++ EvFetch (url1 "999.999.999.999") :: rest.
Proof.
  apply (dotted_quad_reaches_provider1 sampleNet "999.999.999.999" []).
  exists "999", "999", "999", "999". repeat split.
Defined.

(** * Further properties *)

(** ** The resolver, provider by provider *)

Lemma attempt_thrown (usable : JSValue -> bool) (lonKey latKey : string)
    (r : Outcome Response) (e : JSError) :
  thrown r = Some e -> attempt usable lonKey latKey r = Failed e.
Proof.
  destruct r as [[[data | e']] | e']; simpl.
  - destruct data; intros [= <-] || discriminate; reflexivity.
  - intros [= ->]. reflexivity.
  - intros [= ->]. reflexivity.
Qed.

Lemma attempt_silent (usable : JSValue -> bool) (lonKey latKey : string)
    (data : JSValue) :
  thrown (okJson data) = None -> usable data = false ->
  attempt usable lonKey latKey (okJson data) = Unusable.
Proof.
  intros Hthrown Hunusable. simpl. rewrite Hunusable.
  destruct data; try reflexivity; discriminate Hthrown.
Qed.

Lemma attempt_found (usable : JSValue -> bool) (lonKey latKey : string)
    (r : Outcome Response) (c : Coords) :
  attempt usable lonKey latKey r = Found c ->
  exists data : JSValue,
    r = okJson data /\ usable data = true
    /\ c = (field data lonKey, field data latKey).
Proof.
  destruct r as [[[data | e]] | e]; simpl; try discriminate.
  intros H. exists data. split; [reflexivity |].
  destruct (usable data); destruct data; try discriminate H;
    injection H as <-; auto.
Qed.

Lemma usable1_truthy (data : JSValue) :
  usable1 data = true ->
  truthy (field data "lon") = true /\ truthy (field data "lat") = true.
Proof.
  unfold usable1. intros H. split_andb. auto.
Qed.

Lemma usable23_truthy (data : JSValue) :
  usable23 data = true ->
  truthy (field data "longitude") = true
  /\ truthy (field data "latitude") = true.
Proof.
  unfold usable23. intros H. split_andb. auto.
Qed.

(** X1. For a well-formed address, when providers 1 and 2 fail in any way
    and the answer of provider 3 has truthy [longitude] and [latitude],
    the resolver returns the pair of provider 3, after one request to
    each provider in order. *)
Theorem provider3_succeeds_after_two_fail (net : Network)
    (ipAddress : string) (tr : Trace) (props : gmap string JSValue)
    (lon lat : JSValue) :
  RegExp_test ipRegex ipAddress = true ->
  fails usable1 (net (requests tr) (url1 ipAddress)) ->
  fails usable23 (net (requests tr ++ [url1 ipAddress]) (url2 ipAddress)) ->
  net (requests tr ++ [url1 ipAddress; url2 ipAddress]) (url3 ipAddress)
    = okJson (JObject props) ->
  props !! "longitude" = Some lon -> truthy lon = true ->
  props !! "latitude" = Some lat -> truthy lat = true ->
  let out := run net (getCoordinatesFromIP ipAddress) tr in
  out.1 = Fulfilled (Some (lon, lat))
  /\ requests out.2
     = requests tr ++ [url1 ipAddress; url2 ipAddress; url3 ipAddress].
Proof.
  intros Hok Hf1 Hf2 Hr3 Hlon Hlon1 Hlat Hlat1 out. subst out.
  destruct (run_past2 net ipAddress tr Hok Hf1 Hf2) as (tr2 & Hreq2 & ->).
  assert (Hfound : attempt usable23 "longitude" "latitude"
                     (net (requests tr2) (url3 ipAddress))
                   = Found (lon, lat)).
  { rewrite Hreq2, Hr3, attempt_usable23.
    - simpl. rewrite Hlon, Hlat. reflexivity.
    - unfold usable23. simpl. rewrite Hlon, Hlat. simpl.
      rewrite Hlon1, Hlat1. reflexivity. }
  unfold fallback3. rewrite Hfound. split; [reflexivity |].
  simpl. rewrite requests_attempted, Hreq2, <- app_assoc. reflexivity.
Qed.

(** X2. The answer of provider 1 counts only with the status [success]:
    with any other status, or none, the resolver goes on to provider 2
    even when the answer holds coordinates. *)
Theorem status_other_than_success_falls_through (net : Network)
    (ipAddress : string) (tr : Trace) (data : JSValue) :
  RegExp_test ipRegex ipAddress = true ->
  net (requests tr) (url1 ipAddress) = okJson data ->
  field data "status" <> JString "success" ->
  exists more : list string,
    requests (run net (getCoordinatesFromIP ipAddress) tr).2
    = requests tr ++ url1 ipAddress :: url2 ipAddress :: more.
Proof.
  intros Hok Hr1 Hstatus.
  destruct (run_past1 net ipAddress tr Hok) as (tr1 & Hreq1 & ->).
  { rewrite Hr1. simpl. unfold usable1.
    destruct (field data "status") as [| | b | n | s | items | props];
      try reflexivity.
    simpl. destruct (String.eqb_spec s "success") as [-> | Hne];
      [congruence | reflexivity]. }
  destruct (requests_fallback2 net ipAddress tr1) as [more ->].
  exists more. rewrite Hreq1, <- app_assoc. reflexivity.
Qed.

(** X3. The resolver passes the coordinates through as the provider sent
    them, without checking that they are numbers: whatever truthy values
    the answer of provider 1 holds under [lon] and [lat], text included,
    are returned as the pair. *)
Theorem coordinates_are_passed_through (net : Network) (ipAddress : string)
    (tr : Trace) (props : gmap string JSValue) (lon lat : JSValue) :
  RegExp_test ipRegex ipAddress = true ->
  net (requests tr) (url1 ipAddress) = okJson (JObject props) ->
  props !! "status" = Some (JString "success") ->
  props !! "lon" = Some lon -> truthy lon = true ->
  props !! "lat" = Some lat -> truthy lat = true ->
  run net (getCoordinatesFromIP ipAddress) tr
  = (Fulfilled (Some (lon, lat)),
     tr ++ [EvFetch (url1 ipAddress);
            EvConsole LogInfo (GotCoords IpApiCom (lon, lat))]).
Proof.
  intros Hok Hr1 Hstatus Hlon Hlon1 Hlat Hlat1.
  rewrite run_wellformed by exact Hok. unfold fallback.
  rewrite Hr1, attempt_usable1.
  - simpl. rewrite Hlon, Hlat. reflexivity.
  - unfold usable1. simpl. rewrite Hstatus, Hlon, Hlat. simpl.
    rewrite Hlon1, Hlat1. reflexivity.
Qed.

(** The two values of a pair that the resolver returns are truthy. *)
Lemma resolver_pair_truthy (net : Network) (ipAddress : string)
    (tr : Trace) (lon lat : JSValue) :
  (run net (getCoordinatesFromIP ipAddress) tr).1
    = Fulfilled (Some (lon, lat)) ->
  truthy lon = true /\ truthy lat = true.
Proof.
  destruct (RegExp_test ipRegex ipAddress) eqn:Hfmt.
  - rewrite run_wellformed by exact Hfmt.
    unfold fallback, fallback2, fallback3.
    destruct (attempt usable1 _ _ _) as [c1 | | e1] eqn:Ha1; simpl;
      [intros [= ->]; apply attempt_found in Ha1 as (data & _ & Hu & [= -> ->]);
       apply usable1_truthy, Hu | |].
    all: destruct (attempt usable23 _ _ (net _ (url2 _))) as [c2 | | e2]
           eqn:Ha2; simpl;
      [intros [= ->]; apply attempt_found in Ha2 as (data & _ & Hu & [= -> ->]);
       apply usable23_truthy, Hu | |].
    all: destruct (attempt usable23 _ _ (net _ (url3 _))) as [c3 | | e3]
           eqn:Ha3; simpl;
      [intros [= ->]; apply attempt_found in Ha3 as (data & _ & Hu & [= -> ->]);
       apply usable23_truthy, Hu | discriminate | discriminate].
  - rewrite run_malformed by exact Hfmt. discriminate.
Qed.

(** X4. A pair that the resolver returns never holds a falsy value: both
    its longitude and its latitude are truthy, so neither is zero, [null],
    missing or the empty text. *)
Theorem returned_pair_is_truthy (net : Network) (ipAddress : string)
    (tr : Trace) (lon lat : JSValue) :
  (run net (getCoordinatesFromIP ipAddress) tr).1
    = Fulfilled (Some (lon, lat)) ->
  truthy lon = true /\ truthy lat = true.
Proof. apply resolver_pair_truthy. Qed.

(** The requests of one resolution: none for a malformed address, else
    one to three, to the providers in their order. *)
Lemma resolver_requests (net : Network) (ipAddress : string) (tr : Trace) :
  exists issued : list string,
    requests (run net (getCoordinatesFromIP ipAddress) tr).2
    = requests tr ++ issued
    /\ issued `prefix_of` [url1 ipAddress; url2 ipAddress; url3 ipAddress]
    /\ (issued = [] <-> RegExp_test ipRegex ipAddress = false).
Proof.
  destruct (RegExp_test ipRegex ipAddress) eqn:Hfmt.
  - rewrite run_wellformed by exact Hfmt.
    unfold fallback, fallback2, fallback3.
    destruct (attempt usable1 _ _ _) as [c1 | | e1]; simpl.
    { exists [url1 ipAddress]. rewrite requests_attempted.
      split; [reflexivity |]. split; [eexists; reflexivity |].
      split; discriminate. }
    all: destruct (attempt usable23 _ _ (net _ (url2 _))) as [c2 | | e2];
      simpl.
    1, 4: exists [url1 ipAddress; url2 ipAddress];
      rewrite !requests_attempted, <- app_assoc;
      (split; [reflexivity |]); (split; [eexists; reflexivity |]);
      split; discriminate.
    all: exists [url1 ipAddress; url2 ipAddress; url3 ipAddress].
    all: destruct (attempt usable23 _ _ (net _ (url3 _))) as [c3 | | e3];
      simpl; rewrite ?requests_app, !requests_attempted, <- !app_assoc;
      simpl; rewrite ?app_nil_r;
      (split; [reflexivity |]); (split; [reflexivity |]);
      split; discriminate.
  - rewrite run_malformed by exact Hfmt. exists []. simpl.
    rewrite requests_app. simpl. split; [reflexivity |].
    split; [apply prefix_nil |]. split; reflexivity.
Qed.

(** X5. One resolution never makes more than three requests, and those it
    makes go to provider 1, 2 and 3 in this order, with no gap and no
    repetition; it makes none exactly when the address is malformed. *)
Theorem requests_follow_the_provider_order (net : Network)
    (ipAddress : string) (tr : Trace) :
  exists issued : list string,
    requests (run net (getCoordinatesFromIP ipAddress) tr).2
    = requests tr ++ issued
    /\ issued `prefix_of` [url1 ipAddress; url2 ipAddress; url3 ipAddress]
    /\ length issued <= 3
    /\ (issued = [] <-> RegExp_test ipRegex ipAddress = false).
Proof.
  destruct (resolver_requests net ipAddress tr)
    as (issued & Hreq & Hprefix & Hnone).
  exists issued. split; [exact Hreq |]. split; [exact Hprefix |].
  split; [| exact Hnone].
  apply prefix_length in Hprefix. exact Hprefix.
Qed.

Lemma app_two_last (t : Trace) (e ev : Event) :
  t ++ [e; ev] = (t ++ [e]) ++ [ev].
Proof. rewrite <- app_assoc. reflexivity. Qed.

(** The last event of the trace of a resolution. *)
Ltac last_event :=
  unfold attempted; simpl logOf; rewrite ?app_two_last;
  eexists _, _; reflexivity.

(** X6. Every resolution ends with a console line that tells its result:
    an information line with the very pair that is returned, or an error
    line when [null] is returned. *)
Theorem last_console_line_tells_the_result (net : Network)
    (ipAddress : string) (tr : Trace) :
  let out := run net (getCoordinatesFromIP ipAddress) tr in
  exists before : Trace,
    match out.1 with
    | Fulfilled (Some c) =>
        exists provider : Provider,
          out.2 = before ++ [EvConsole LogInfo (GotCoords provider c)]
    | Fulfilled None =>
        exists message : Message,
          out.2 = before ++ [EvConsole LogError message]
    | Rejected _ => False
    end.
Proof.
  intros out. subst out.
  destruct (RegExp_test ipRegex ipAddress) eqn:Hfmt.
  - rewrite run_wellformed by exact Hfmt.
    unfold fallback, fallback2, fallback3.
    destruct (attempt usable1 _ _ _) as [c1 | | e1]; simpl;
      [last_event | |].
    all: destruct (attempt usable23 _ _ (net _ (url2 _))) as [c2 | | e2];
      simpl; [last_event | |].
    all: destruct (attempt usable23 _ _ (net _ (url3 _))) as [c3 | | e3];
      simpl; last_event.
  - rewrite run_malformed by exact Hfmt. simpl. eexists _, _. reflexivity.
Qed.

(** X7. Each [try] block catches what is thrown in it: when the request is
    rejected, the body does not parse or the body is [null], the block
    writes one warning that carries the error caught, and completes
    normally, so that the code after it runs. *)
Theorem thrown_error_is_logged_and_caught (net : Network)
    (ipAddress : string) (tr : Trace) (e : JSError) :
  (thrown (net (requests tr) (url1 ipAddress)) = Some e ->
   run net (tryProvider1 ipAddress) tr
   = (Normal tt,
      tr ++ [EvFetch (url1 ipAddress);
             EvConsole LogWarn (RequestFailed IpApiCom e)]))
  /\ (thrown (net (requests tr) (url2 ipAddress)) = Some e ->
      run net (tryProvider2 ipAddress) tr
      = (Normal tt,
         tr ++ [EvFetch (url2 ipAddress);
                EvConsole LogWarn (RequestFailed IpapiCo e)]))
  /\ (thrown (net (requests tr) (url3 ipAddress)) = Some e ->
      run net (tryProvider3 ipAddress) tr
      = (Normal tt,
         tr ++ [EvFetch (url3 ipAddress);
                EvConsole LogWarn (RequestFailed IpApiIo e)])).
Proof.
  split; [| split]; intros Hthrown.
  - rewrite run_tryProvider1. cbv zeta.
    rewrite (attempt_thrown _ _ _ _ e Hthrown). reflexivity.
  - rewrite run_tryProvider2. cbv zeta.
    rewrite (attempt_thrown _ _ _ _ e Hthrown). reflexivity.
  - rewrite run_tryProvider3. cbv zeta.
    rewrite (attempt_thrown _ _ _ _ e Hthrown). reflexivity.
Qed.

(** X8. Data that parses but is unusable is passed over in silence: the
    [try] block of the provider writes nothing to the console and
    completes normally. *)
Theorem unusable_data_is_passed_over_in_silence (net : Network)
    (ipAddress : string) (tr : Trace) (data : JSValue) :
  thrown (okJson data) = None ->
  (net (requests tr) (url1 ipAddress) = okJson data ->
   usable1 data = false ->
   run net (tryProvider1 ipAddress) tr
   = (Normal tt, tr ++ [EvFetch (url1 ipAddress)]))
  /\ (net (requests tr) (url2 ipAddress) = okJson data ->
      usable23 data = false ->
      run net (tryProvider2 ipAddress) tr
      = (Normal tt, tr ++ [EvFetch (url2 ipAddress)]))
  /\ (net (requests tr) (url3 ipAddress) = okJson data ->
      usable23 data = false ->
      run net (tryProvider3 ipAddress) tr
      = (Normal tt, tr ++ [EvFetch (url3 ipAddress)])).
Proof.
  intros Hthrown. split; [| split]; intros Hr Hunusable.
  - rewrite run_tryProvider1. cbv zeta.
    rewrite Hr, (attempt_silent _ _ _ data Hthrown Hunusable). reflexivity.
  - rewrite run_tryProvider2. cbv zeta.
    rewrite Hr, (attempt_silent _ _ _ data Hthrown Hunusable). reflexivity.
  - rewrite run_tryProvider3. cbv zeta.
    rewrite Hr, (attempt_silent _ _ _ data Hthrown Hunusable). reflexivity.
Qed.

(** ** The shape of a well-formed address *)

Lemma length_append (s1 s2 : string) :
  String.length (s1 +:+ s2) = String.length s1 + String.length s2.
Proof.
  induction s1 as [| c s1 IH]; [reflexivity |].
  change (S (String.length (s1 +:+ s2))
          = S (String.length s1 + String.length s2)).
  rewrite IH. reflexivity.
Qed.

Lemma allQuadChars_append (s1 s2 : string) :
  allQuadChars (s1 +:+ s2) = allQuadChars s1 && allQuadChars s2.
Proof.
  induction s1 as [| c s1 IH]; [reflexivity |].
  change (isQuadChar c && allQuadChars (s1 +:+ s2)
          = isQuadChar c && allQuadChars s1 && allQuadChars s2).
  rewrite IH. apply andb_assoc.
Qed.

Lemma allDigits_allQuadChars (g : string) :
  allDigits g = true -> allQuadChars g = true.
Proof.
  induction g as [| c g IH]; simpl; [reflexivity |].
  intros H. split_andb. unfold isQuadChar.
  rewrite H, IH by assumption. reflexivity.
Qed.

Lemma isGroup_shape (g : string) :
  isGroup g = true ->
  allQuadChars g = true /\ 1 <= String.length g <= 3.
Proof.
  unfold isGroup. intros H. split_andb.
  split; [apply allDigits_allQuadChars; assumption |].
  split; [apply Nat.leb_le | apply Nat.leb_le]; assumption.
Qed.

(** X9. An address that passes the format check is made of digits and
    dots only, and is 7 to 15 characters long: nothing else is ever put
    into the URL of a request. *)
Theorem wellformed_address_shape (ipAddress : string) :
  RegExp_test ipRegex ipAddress = true ->
  allQuadChars ipAddress = true
  /\ 7 <= String.length ipAddress <= 15.
Proof.
  intros Hok. apply RegExp_test_ipRegex in Hok
    as (a & b & c & d & Ha & Hb & Hc & Hd & ->).
  apply isGroup_shape in Ha as [Ha Hla], Hb as [Hb Hlb],
    Hc as [Hc Hlc], Hd as [Hd Hld].
  rewrite !allQuadChars_append, !length_append, Ha, Hb, Hc, Hd.
  simpl. split; [reflexivity | lia].
Qed.

(** ** The flow builder, further *)

Lemma resolvePairs_app (net : Network) (l1 l2 : list IpPair) :
  forall tr : Trace,
    resolvePairs net (l1 ++ l2) tr
    = ((resolvePairs net l1 tr).1
       ++ (resolvePairs net l2 (resolvePairs net l1 tr).2).1,
       (resolvePairs net l2 (resolvePairs net l1 tr).2).2).
Proof.
  induction l1 as [| ipPair l1 IH]; intros tr; simpl.
  - destruct (resolvePairs net l2 tr); reflexivity.
  - destruct (run net (getCoordinatesFromIP (srcIP ipPair)) tr) as [s tr1].
    destruct (run net (getCoordinatesFromIP (dstIP ipPair)) tr1) as [d tr2].
    rewrite IH. destruct (resolvePairs net l1 tr2) as [sds tr3]. reflexivity.
Qed.

(** X12. Building the flows of two lists one after the other comes to
    building the flows of the two lists put together: the flows are those
    of the first list followed by those of the second, and the trace is
    the same. *)
Theorem flows_of_appended_lists (net : Network) (l1 l2 : list IpPair)
    (tr : Trace) :
  let o1 := run net (createFlowsFromIPs l1) tr in
  let o2 := run net (createFlowsFromIPs l2) o1.2 in
  exists f1 f2 : list Flow,
    o1.1 = Fulfilled f1 /\ o2.1 = Fulfilled f2
    /\ run net (createFlowsFromIPs (l1 ++ l2)) tr
       = (Fulfilled (f1 ++ f2), o2.2).
Proof.
  intros o1 o2. subst o1 o2. rewrite !run_createFlowsFromIPs. simpl.
  eexists _, _. split; [reflexivity |]. split; [reflexivity |].
  rewrite resolvePairs_app. simpl. rewrite omap_app. reflexivity.
Qed.

(** On a network whose answers depend on the URL alone, the value of a
    program does not depend on what was done before. *)
Lemma run_stateless_value {A : Type} (respond : string -> Outcome Response)
    (p : Prog A) :
  forall tr tr' : Trace,
    (run (stateless respond) p tr).1 = (run (stateless respond) p tr').1.
Proof.
  induction p as [a | url k IH | level message k IH]; intros tr tr'; simpl.
  - reflexivity.
  - apply IH.
  - apply IH.
Qed.

Lemma resolvePairs_stateless (respond : string -> Outcome Response)
    (ipPairs : list IpPair) :
  forall tr : Trace,
    (resolvePairs (stateless respond) ipPairs tr).1
    = (fun ipPair =>
         (resolved respond (srcIP ipPair), resolved respond (dstIP ipPair)))
      <$> ipPairs.
Proof.
  induction ipPairs as [| ipPair rest IH]; intros tr; [reflexivity |].
  simpl. unfold resolved at 1 2.
  rewrite (run_stateless_value respond _ [] tr).
  destruct (run (stateless respond) (getCoordinatesFromIP (srcIP ipPair)) tr)
    as [s tr1].
  rewrite (run_stateless_value respond _ [] tr1).
  destruct (run (stateless respond) (getCoordinatesFromIP (dstIP ipPair)) tr1)
    as [d tr2].
  specialize (IH tr2).
  destruct (resolvePairs (stateless respond) rest tr2) as [sds tr3].
  simpl in *. rewrite IH. reflexivity.
Qed.

(** X13. On a network whose answers depend on the URL alone, whether a
    pair gives a flow, and which, depends on the pair alone, not on the
    pairs before it: the output is the list, in order, of the flows of the
    pairs both of whose addresses the resolver resolves. *)
Theorem flows_on_a_stateless_network (respond : string -> Outcome Response)
    (ipPairs : list IpPair) (tr : Trace) :
  (run (stateless respond) (createFlowsFromIPs ipPairs) tr).1
  = Fulfilled
      (omap (fun ipPair =>
               flowOf (resolved respond (srcIP ipPair),
                       resolved respond (dstIP ipPair)))
         ipPairs).
Proof.
  rewrite run_createFlowsFromIPs. simpl. rewrite resolvePairs_stateless.
  f_equal. induction ipPairs as [| ipPair rest IH]; [reflexivity |].
  csimpl. rewrite IH. reflexivity.
Qed.

(** Each resolution of the flow builder is a run of the resolver. *)
Lemma resolvePairs_elem (net : Network) (ipPairs : list IpPair) :
  forall (tr : Trace) (s d : Outcome (option Coords)),
    (s, d) ∈ (resolvePairs net ipPairs tr).1 ->
    exists (ipPair : IpPair) (tr1 tr2 : Trace),
      ipPair ∈ ipPairs
      /\ s = (run net (getCoordinatesFromIP (srcIP ipPair)) tr1).1
      /\ d = (run net (getCoordinatesFromIP (dstIP ipPair)) tr2).1.
Proof.
  induction ipPairs as [| ipPair rest IH]; intros tr s d; simpl.
  - intros H. apply elem_of_nil in H. destruct H.
  - destruct (run net (getCoordinatesFromIP (srcIP ipPair)) tr)
      as [s0 tr1] eqn:Hs.
    destruct (run net (getCoordinatesFromIP (dstIP ipPair)) tr1)
      as [d0 tr2] eqn:Hd.
    specialize (IH tr2 s d).
    destruct (resolvePairs net rest tr2) as [sds tr3]. simpl in *.
    intros H. apply elem_of_cons in H as [[= -> ->] | H].
    + exists ipPair, tr, tr1. rewrite Hs, Hd.
      split; [apply elem_of_cons; left; reflexivity | auto].
    + destruct (IH H) as (ipPair' & tr1' & tr2' & Hin & Hs' & Hd').
      exists ipPair', tr1', tr2'.
      split; [apply elem_of_cons; right; exact Hin | auto].
Qed.

(** X14. A flow of the output never holds [null] or a falsy coordinate:
    its source and its destination are pairs of truthy values, each the
    result of resolving the matching address of a pair of the input. *)
Theorem flows_hold_truthy_pairs (net : Network) (ipPairs : list IpPair)
    (tr : Trace) (flows : list Flow) (flow : Flow) :
  (run net (createFlowsFromIPs ipPairs) tr).1 = Fulfilled flows ->
  flow ∈ flows ->
  exists slon slat dlon dlat : JSValue,
    flow = {| src := Some (slon, slat); dst := Some (dlon, dlat) |}
    /\ truthy slon = true /\ truthy slat = true
    /\ truthy dlon = true /\ truthy dlat = true.
Proof.
  rewrite run_createFlowsFromIPs. simpl. intros [= <-] Hflow.
  apply list_elem_of_omap in Hflow as (sd & Hin & Hsd).
  apply flowOf_resolved in Hsd as ([slon slat] & [dlon dlat] & -> & ->).
  apply resolvePairs_elem in Hin
    as (ipPair & tr1 & tr2 & _ & Hs & Hd).
  symmetry in Hs, Hd.
  apply resolver_pair_truthy in Hs as [Hslon Hslat], Hd as [Hdlon Hdlat].
  exists slon, slat, dlon, dlat. auto 6.
Qed.

Lemma resolver_requests_bound (net : Network) (ipAddress : string)
    (tr : Trace) :
  length (requests (run net (getCoordinatesFromIP ipAddress) tr).2)
  <= length (requests tr) + 3.
Proof.
  destruct (resolver_requests net ipAddress tr)
    as (issued & -> & Hprefix & _).
  apply prefix_length in Hprefix. rewrite length_app. simpl in Hprefix. lia.
Qed.

(** X15. The flow builder makes at most six requests for each pair of its
    input. *)
Theorem flows_requests_bound (net : Network) (ipPairs : list IpPair)
    (tr : Trace) :
  length (requests (run net (createFlowsFromIPs ipPairs) tr).2)
  <= length (requests tr) + 6 * length ipPairs.
Proof.
  rewrite run_createFlowsFromIPs. simpl. revert tr.
  induction ipPairs as [| ipPair rest IH]; intros tr; simpl; [lia |].
  pose proof (resolver_requests_bound net (srcIP ipPair) tr) as Hs.
  destruct (run net (getCoordinatesFromIP (srcIP ipPair)) tr) as [s tr1].
  pose proof (resolver_requests_bound net (dstIP ipPair) tr1) as Hd.
  destruct (run net (getCoordinatesFromIP (dstIP ipPair)) tr1) as [d tr2].
  specialize (IH tr2).
  destruct (resolvePairs net rest tr2) as [sds tr3]. simpl in *. lia.
Qed.

(** ** The batch resolver, further *)

Lemma advance_trace {A : Type} (p : Prog A) :
  forall tr : Trace, exists more : Trace,
    (advance p tr).2 = tr ++ more
    /\ length (requests more) = awaits (advance p tr).1.
Proof.
  induction p as [a | url k IH | level message k IH]; intros tr; simpl.
  - exists []. rewrite app_nil_r. auto.
  - exists [EvFetch url]. auto.
  - destruct (IH (tr ++ [EvConsole level message])) as (more & -> & Hlen).
    exists (EvConsole level message :: more).
    rewrite <- app_assoc. auto.
Qed.

(** One step of the pool, read off [promiseAll]. *)
Lemma promiseAll_step {A : Type} (sched : Scheduler) (fuel : nat)
    (tasks : list (Prog (Outcome A))) (tr : Trace)
    (o : Outcome (list A)) (tr' : Trace) :
  settled tasks = None ->
  promiseAll sched (S fuel) tasks tr = Some (o, tr') ->
  exists (i : nat) (url : string) (k : Outcome Response -> Prog (Outcome A))
         (r : Outcome Response),
    tasks !! i = Some (Fetch url k)
    /\ promiseAll sched fuel (<[i := (advance (k r) tr).1]> tasks)
         (advance (k r) tr).2
       = Some (o, tr').
Proof.
  intros Hsettled. simpl. rewrite Hsettled.
  destruct (sched tr (pending 0 tasks)) as [choice r].
  destruct (pending 0 tasks !! (choice mod length (pending 0 tasks)))
    as [[i url'] |]; [| discriminate].
  destruct (tasks !! i) as [[a | url k | level message k] |] eqn:Hi;
    try discriminate.
  destruct (advance (k r) tr) as [t tr1] eqn:Hadv. intros Hrun.
  exists i, url, k, r. rewrite Hadv. auto.
Qed.

Lemma promiseAll_extends {A : Type} (sched : Scheduler) :
  forall (fuel : nat) (tasks : list (Prog (Outcome A))) (tr : Trace)
         (o : Outcome (list A)) (tr' : Trace),
    promiseAll sched fuel tasks tr = Some (o, tr') ->
    exists later : Trace, tr' = tr ++ later.
Proof.
  induction fuel as [| fuel IH]; intros tasks tr o tr';
    destruct (settled tasks) as [o' |] eqn:Hsettled.
  - simpl. rewrite Hsettled. intros [= _ <-]. exists []. symmetry.
    apply app_nil_r.
  - simpl. rewrite Hsettled. discriminate.
  - simpl. rewrite Hsettled. intros [= _ <-]. exists []. symmetry.
    apply app_nil_r.
  - intros Hrun.
    apply (promiseAll_step sched fuel tasks tr o tr' Hsettled) in Hrun
      as (i & url & k & r & _ & Hrun).
    apply IH in Hrun as [later ->].
    destruct (advance_trace (k r) tr) as (more & -> & _).
    exists (more ++ later). rewrite app_assoc. reflexivity.
Qed.

Lemma advance_entryOf (ipAddress : string) (tr : Trace) :
  (advance (entryOf ipAddress) tr).2 = tr ++ [launch ipAddress].
Proof.
  unfold entryOf, getCoordinatesFromIP, validate, launch.
  destruct (RegExp_test ipRegex ipAddress); reflexivity.
Qed.

Lemma spawn_entries_trace (ipAddresses : list string) :
  forall tr : Trace,
    (spawn (entryOf <$> ipAddresses) tr).2 = tr ++ (launch <$> ipAddresses).
Proof.
  induction ipAddresses as [| ipAddress rest IH]; intros tr; csimpl.
  - symmetry. apply app_nil_r.
  - pose proof (advance_entryOf ipAddress tr) as Hadv.
    destruct (advance (entryOf ipAddress) tr) as [t tr1]. simpl in Hadv.
    specialize (IH tr1).
    destruct (spawn (entryOf <$> rest) tr1) as [ts tr2]. simpl in *.
    rewrite IH, Hadv, <- app_assoc. reflexivity.
Qed.

(** X10. The batch resolver launches every lookup before it waits for any
    answer: its trace begins with, for each address in the order of the
    input, the first request of a well-formed address or the console line
    of a malformed one. *)
Theorem batch_launches_every_lookup_first (sched : Scheduler) (fuel : nat)
    (ipAddresses : list string) (tr : Trace) (o : Outcome (list Entry))
    (tr' : Trace) :
  getCoordinatesFromIPs sched fuel ipAddresses tr = Some (o, tr') ->
  exists later : Trace, tr' = tr ++ (launch <$> ipAddresses) ++ later.
Proof.
  unfold getCoordinatesFromIPs.
  change (map entryOf ipAddresses) with (entryOf <$> ipAddresses).
  pose proof (spawn_entries_trace ipAddresses tr) as Hspawn.
  destruct (spawn (entryOf <$> ipAddresses) tr) as [tasks tr0].
  simpl in Hspawn. subst tr0.
  destruct (promiseAll sched fuel tasks _) as [[o' tr1] |] eqn:Hrun;
    [| discriminate].
  apply promiseAll_extends in Hrun as [later ->].
  intros H. exists later. rewrite app_assoc.
  destruct o'; congruence.
Qed.

Lemma pending_length_insert {A : Type} (tasks : list (Prog A)) :
  forall (j i : nat) (url : string) (k : Outcome Response -> Prog A)
         (t : Prog A),
    tasks !! i = Some (Fetch url k) ->
    length (pending j (<[i := t]> tasks)) + 1
    = length (pending j tasks) + awaits t.
Proof.
  induction tasks as [| t0 tasks IH]; intros j i url k t; [discriminate |].
  destruct i as [| i]; simpl.
  - intros [= ->]. destruct t; simpl; lia.
  - intros Hi. specialize (IH (S j) i url k t Hi).
    destruct t0; simpl; lia.
Qed.

Lemma pending_le_sum {A : Type} (ns : list nat) (tasks : list (Prog A)) :
  Forall2 bounded ns tasks ->
  forall j : nat, length (pending j tasks) <= sum_list ns.
Proof.
  induction 1 as [| n t ns tasks Hn _ IH]; intros j; simpl; [lia |].
  specialize (IH (S j)).
  destruct t as [a | url k | level message k]; simpl; [lia | | lia].
  destruct n as [| n]; [destruct Hn | lia].
Qed.

(** The requests of the pool are within the bounds of its tasks, the
    outstanding ones counted. *)
Lemma promiseAll_requests {A : Type} (sched : Scheduler) :
  forall (fuel : nat) (tasks : list (Prog (Outcome A))) (ns : list nat)
         (tr : Trace) (o : Outcome (list A)) (tr' : Trace),
    Forall2 bounded ns tasks ->
    promiseAll sched fuel tasks tr = Some (o, tr') ->
    length (requests tr') + length (pending 0 tasks)
    <= length (requests tr) + sum_list ns.
Proof.
  induction fuel as [| fuel IH]; intros tasks ns tr o tr' Hwithin;
    pose proof (pending_le_sum ns tasks Hwithin 0) as Hpending;
    destruct (settled tasks) as [o' |] eqn:Hsettled.
  - simpl. rewrite Hsettled. intros [= _ <-]. lia.
  - simpl. rewrite Hsettled. discriminate.
  - simpl. rewrite Hsettled. intros [= _ <-]. lia.
  - intros Hrun.
    apply (promiseAll_step sched fuel tasks tr o tr' Hsettled) in Hrun
      as (i & url & k & r & Hi & Hrun).
    destruct (Forall2_lookup_r _ _ _ _ _ Hwithin Hi) as (n & Hn & Hbound).
    destruct n as [| n]; [destruct Hbound |].
    destruct (advance_trace (k r) tr) as (more & Htr & Hmore).
    apply (IH _ (<[i := n]> ns)) in Hrun.
    + pose proof (pending_length_insert tasks 0 i url k
                    (advance (k r) tr).1 Hi) as Hpend.
      pose proof (sum_list_insert_pred ns i n Hn) as Hsum.
      rewrite Htr, requests_app, length_app in Hrun. lia.
    + apply Forall2_insert; [exact Hwithin |].
      rewrite advance_answered. apply bounded_answered, Hbound.
Qed.

Lemma spawn_requests {A : Type} (ps : list (Prog A)) :
  forall (tr : Trace) (j : nat),
    length (requests (spawn ps tr).2)
    = length (requests tr) + length (pending j (spawn ps tr).1).
Proof.
  induction ps as [| p ps IH]; intros tr j; simpl; [lia |].
  destruct (advance_trace p tr) as (more & Htr & Hmore).
  destruct (advance p tr) as [t tr1]. simpl in Htr, Hmore. subst tr1.
  specialize (IH (tr ++ more) (S j)).
  destruct (spawn ps (tr ++ more)) as [ts tr2]. simpl in *.
  rewrite IH, requests_app, length_app, Hmore.
  destruct t; simpl; lia.
Qed.

(** X11. Whatever the order in which the answers arrive, the batch
    resolver makes at most three requests for each address of its
    input. *)
Theorem batch_requests_bound (sched : Scheduler) (fuel : nat)
    (ipAddresses : list string) (tr : Trace) (o : Outcome (list Entry))
    (tr' : Trace) :
  getCoordinatesFromIPs sched fuel ipAddresses tr = Some (o, tr') ->
  length (requests tr') <= length (requests tr) + 3 * length ipAddresses.
Proof.
  unfold getCoordinatesFromIPs.
  change (map entryOf ipAddresses) with (entryOf <$> ipAddresses).
  destruct (spawn_entries anyAnswer ipAddresses tr) as (_ & _ & Hwithin).
  pose proof (spawn_requests (entryOf <$> ipAddresses) tr 0) as Hspawn.
  destruct (spawn (entryOf <$> ipAddresses) tr) as [tasks tr0].
  simpl in Hwithin, Hspawn.
  destruct (promiseAll sched fuel tasks tr0) as [[o' tr1] |] eqn:Hrun;
    [| discriminate].
  apply (promiseAll_requests sched fuel tasks _ tr0 o' tr1 Hwithin) in Hrun.
  rewrite sum_list_replicate in Hrun.
  intros H. assert (tr1 = tr') as <- by (destruct o'; congruence).
  lia.
Qed.

(** ** The URLs *)

Lemma append_cancel_r (t : string) :
  forall a b : string, a +:+ t = b +:+ t -> a = b.
Proof.
  induction a as [| c a IH]; intros [| c' b] H.
  - reflexivity.
  - apply (f_equal String.length) in H.
    change (String.length t = S (String.length (b +:+ t))) in H.
    rewrite length_append in H. lia.
  - apply (f_equal String.length) in H.
    change (S (String.length (a +:+ t)) = String.length t) in H.
    rewrite length_append in H. lia.
  - change (String c (a +:+ t) = String c' (b +:+ t)) in H.
    injection H as -> H. rewrite (IH b H). reflexivity.
Qed.

(** X16. The URL of a request tells the provider and the address: two
    addresses give the same URL at a provider only when they are the same
    address. *)
Theorem url_determines_the_address (a b : string) :
  (url1 a = url1 b -> a = b)
  /\ (url2 a = url2 b -> a = b)
  /\ (url3 a = url3 b -> a = b).
Proof.
  unfold url1, url2, url3. split; [| split]; intros H.
  - apply String.app_inj in H. exact (append_cancel_r _ a b H).
  - apply String.app_inj in H. exact (append_cancel_r _ a b H).
  - apply String.app_inj in H. exact H.
Qed.

(** ** Malformed addresses in lists *)

(** The entries of the batch resolver, whatever the fuel. *)
Lemma batch_entries (sched : Scheduler) (fuel : nat)
    (ipAddresses : list string) (tr : Trace) (results : list Entry)
    (tr' : Trace) :
  getCoordinatesFromIPs sched fuel ipAddresses tr
    = Some (Fulfilled results, tr') ->
  Forall2 (fun ipAddress entry =>
             exists net : Network,
               (run net (getCoordinatesFromIP ipAddress) []).1
               = Fulfilled (coords entry)
               /\ ip entry = ipAddress)
    ipAddresses results.
Proof.
  unfold getCoordinatesFromIPs.
  change (map entryOf ipAddresses) with (entryOf <$> ipAddresses).
  destruct (spawn_entries anyAnswer ipAddresses tr)
    as (Hfulfils & Hlinked & Hwithin).
  destruct (spawn (entryOf <$> ipAddresses) tr) as [tasks tr0].
  simpl in Hlinked, Hwithin.
  destruct (promiseAll sched fuel tasks tr0) as [[o tr1] |] eqn:Hrun;
    [| discriminate].
  destruct (promiseAll_sound sched anyAnswer (obeys_anyAnswer sched)
              (entryOf <$> ipAddresses) Hfulfils fuel tasks _ tr0 o tr1
              Hlinked Hwithin Hrun) as (results' & -> & Hresults).
  intros [= <- _]. apply Forall2_fmap_l in Hresults.
  apply (Forall2_impl _ _ _ _ Hresults).
  intros ipAddress entry (rs & Hrs & _). simpl in Hrs. symmetry in Hrs.
  apply answered_scripted, entryOf_value in Hrs as (c & [= ->] & Hc).
  exists (scripted rs). auto.
Qed.

(** X17. In the result of the batch resolver, whatever the order in which
    the answers arrive, the entry of a malformed address holds [null], and
    a pair that an entry holds is made of two truthy values. *)
Theorem batch_entries_are_null_or_truthy (sched : Scheduler) (fuel : nat)
    (ipAddresses : list string) (tr : Trace) (results : list Entry)
    (tr' : Trace) (entry : Entry) :
  getCoordinatesFromIPs sched fuel ipAddresses tr
    = Some (Fulfilled results, tr') ->
  entry ∈ results ->
  (RegExp_test ipRegex (ip entry) = false -> coords entry = None)
  /\ (forall lon lat : JSValue,
        coords entry = Some (lon, lat) ->
        truthy lon = true /\ truthy lat = true).
Proof.
  intros Hrun Hentry. apply batch_entries in Hrun.
  apply list_elem_of_lookup in Hentry as [i Hi].
  destruct (Forall2_lookup_r _ _ _ _ _ Hrun Hi)
    as (ipAddress & _ & net & Hnet & <-).
  split.
  - intros Hbad. rewrite run_malformed in Hnet by exact Hbad.
    simpl in Hnet. congruence.
  - intros lon lat Hc. rewrite Hc in Hnet.
    exact (resolver_pair_truthy net (ip entry) [] lon lat Hnet).
Qed.

(** X18. A pair with a malformed address never gives a flow: the output
    of the flow builder has at most as many flows as the input has pairs
    whose two addresses both pass the format check. *)
Theorem malformed_pairs_give_no_flow (net : Network) (ipPairs : list IpPair)
    (tr : Trace) :
  exists flows : list Flow,
    (run net (createFlowsFromIPs ipPairs) tr).1 = Fulfilled flows
    /\ length flows <= length (List.filter wellformedPair ipPairs).
Proof.
  rewrite run_createFlowsFromIPs. simpl. eexists. split; [reflexivity |].
  revert tr. induction ipPairs as [| ipPair rest IH]; intros tr;
    [reflexivity |].
  simpl.
  pose proof (run_malformed net (srcIP ipPair) tr) as Hs.
  destruct (run net (getCoordinatesFromIP (srcIP ipPair)) tr) as [s tr1].
  pose proof (run_malformed net (dstIP ipPair) tr1) as Hd.
  destruct (run net (getCoordinatesFromIP (dstIP ipPair)) tr1) as [d tr2].
  specialize (IH tr2).
  destruct (resolvePairs net rest tr2) as [sds tr3]. simpl in IH. csimpl.
  unfold wellformedPair at 1.
  destruct (RegExp_test ipRegex (srcIP ipPair)); simpl.
  - destruct (RegExp_test ipRegex (dstIP ipPair)); simpl.
    + destruct s as [[cs |] | es], d as [[cd |] | ed]; simpl; lia.
    + specialize (Hd eq_refl). injection Hd as -> _.
      destruct s as [[cs |] | es]; simpl; exact IH.
  - specialize (Hs eq_refl). injection Hs as -> _. simpl. exact IH.
Qed.

(** ** The further properties at the sample inputs *)

Lemma provider3_succeeds_after_two_fail_witness :
  (run sampleNet3 (getCoordinatesFromIP "3.3.3.3") []).1
  = Fulfilled (Some (JNumber (Finite true 9 0), JNumber (Finite false 3 0)))
  /\ requests (run sampleNet3 (getCoordinatesFromIP "3.3.3.3") []).2
     = requests [] ++ [url1 "3.3.3.3"; url2 "3.3.3.3"; url3 "3.3.3.3"].
Proof.
  apply (provider3_succeeds_after_two_fail sampleNet3 "3.3.3.3" []
           sampleAnswer2); (exact I || reflexivity).
Defined.

Lemma status_other_than_success_falls_through_witness :
  exists more : list string,
    requests (run sampleNet3 (getCoordinatesFromIP "5.5.5.5") []).2
    = requests [] ++ url1 "5.5.5.5" :: url2 "5.5.5.5" :: more.
Proof.
  apply (status_other_than_success_falls_through sampleNet3 "5.5.5.5" []
           failAnswer1).
  - reflexivity.
  - reflexivity.
  - vm_compute. intros H. discriminate H.
Defined.

Lemma coordinates_are_passed_through_witness :
  run sampleNet3 (getCoordinatesFromIP "4.4.4.4") []
  = (Fulfilled (Some (JString "-122.08", JString "37.38")),
     [] ++ [EvFetch (url1 "4.4.4.4");
            EvConsole LogInfo
              (GotCoords IpApiCom (JString "-122.08", JString "37.38"))]).
Proof.
  apply (coordinates_are_passed_through sampleNet3 "4.4.4.4" [] textAnswer1);
    reflexivity.
Defined.

Lemma returned_pair_is_truthy_witness :
  truthy (JNumber (Finite false 5 0)) = true
  /\ truthy (JNumber (Finite false 7 0)) = true.
Proof.
  apply (returned_pair_is_truthy sampleNet "8.8.8.8" []).
  vm_compute. reflexivity.
Defined.

Lemma thrown_error_is_logged_and_caught_witness :
  run sampleNet3 (tryProvider1 "6.6.6.6") []
  = (Normal tt,
     [] ++ [EvFetch (url1 "6.6.6.6");
            EvConsole LogWarn
              (RequestFailed IpApiCom
                 (TypeError "Cannot read properties of null or undefined"))])
  /\ run sampleNet3 (tryProvider2 "6.6.6.6") []
     = (Normal tt,
        [] ++ [EvFetch (url2 "6.6.6.6");
               EvConsole LogWarn
                 (RequestFailed IpapiCo (TypeError "Failed to fetch"))]).
Proof.
  split.
  - apply (proj1 (thrown_error_is_logged_and_caught sampleNet3 "6.6.6.6" []
                    (TypeError "Cannot read properties of null or undefined"))).
    reflexivity.
  - apply (proj1 (proj2 (thrown_error_is_logged_and_caught sampleNet3
                           "6.6.6.6" [] (TypeError "Failed to fetch")))).
    reflexivity.
Defined.

Lemma unusable_data_is_passed_over_in_silence_witness :
  run sampleNet3 (tryProvider1 "7.7.7.7") []
  = (Normal tt, [] ++ [EvFetch (url1 "7.7.7.7")]).
Proof.
  apply (proj1 (unusable_data_is_passed_over_in_silence sampleNet3 "7.7.7.7"
                  [] (JObject ∅) eq_refl)); reflexivity.
Defined.

Lemma wellformed_address_shape_witness :
  allQuadChars "999.999.999.999" = true
  /\ 7 <= String.length "999.999.999.999" <= 15.
Proof. apply wellformed_address_shape. reflexivity. Defined.

Lemma batch_launches_every_lookup_first_witness :
  match getCoordinatesFromIPs newestFirstSched 9
          ["8.8.8.8"; "bad"; "1.1.1.1"] [] with
  | Some (_, tr') =>
      exists later : Trace,
        tr' = [] ++ (launch <$> ["8.8.8.8"; "bad"; "1.1.1.1"]) ++ later
  | None => False
  end.
Proof.
  destruct (getCoordinatesFromIPs newestFirstSched 9
              ["8.8.8.8"; "bad"; "1.1.1.1"] []) as [[o tr'] |] eqn:Hrun.
  - exact (batch_launches_every_lookup_first _ _ _ _ _ _ Hrun).
  - vm_compute in Hrun. discriminate Hrun.
Defined.

Lemma batch_requests_bound_witness :
  match getCoordinatesFromIPs newestFirstSched 9
          ["8.8.8.8"; "bad"; "1.1.1.1"] [] with
  | Some (_, tr') => length (requests tr') <= length (requests []) + 3 * 3
  | None => False
  end.
Proof.
  destruct (getCoordinatesFromIPs newestFirstSched 9
              ["8.8.8.8"; "bad"; "1.1.1.1"] []) as [[o tr'] |] eqn:Hrun.
  - exact (batch_requests_bound _ _ _ _ _ _ Hrun).
  - vm_compute in Hrun. discriminate Hrun.
Defined.

Lemma flows_hold_truthy_pairs_witness :
  exists slon slat dlon dlat : JSValue,
    {| src := Some (JNumber (Finite false 5 0), JNumber (Finite false 7 0));
       dst := Some (JNumber (Finite true 9 0), JNumber (Finite false 3 0)) |}
    = {| src := Some (slon, slat); dst := Some (dlon, dlat) |}
    /\ truthy slon = true /\ truthy slat = true
    /\ truthy dlon = true /\ truthy dlat = true.
Proof.
  eapply (flows_hold_truthy_pairs sampleNet
            [{| srcIP := "8.8.8.8"; dstIP := "1.1.1.1" |};
             {| srcIP := "bad"; dstIP := "8.8.8.8" |}] []).
  - vm_compute. reflexivity.
  - apply list_elem_of_singleton. reflexivity.
Defined.

Lemma url_determines_the_address_witness : "8.8.8.8" = "8.8.8.8".
Proof.
  apply (proj1 (url_determines_the_address "8.8.8.8" "8.8.8.8")).
  reflexivity.
Defined.

Lemma batch_entries_are_null_or_truthy_witness :
  (RegExp_test ipRegex "bad" = false -> @None Coords = None)
  /\ (forall lon lat : JSValue,
        @None Coords = Some (lon, lat) ->
        truthy lon = true /\ truthy lat = true).
Proof.
  eapply (batch_entries_are_null_or_truthy sampleSched 9
            ["8.8.8.8"; "bad"] [] _ _ {| ip := "bad"; coords := None |}).
  - vm_compute. reflexivity.
  - apply elem_of_cons. right. apply list_elem_of_singleton. reflexivity.
Defined.
